(** * Book-content RAG agent: a shallow embedding of [agent.py] and [api.py]

    The development follows the two source files of the repository.

    - [BookContentAgent.query] (agent.py) is a decision list with early
      returns followed by a retrieval-augmented flow that talks to two hosted
      services.  The services are modelled as clients whose methods either
      return a value or raise; every call the agent issues is recorded in a
      log, so that "no call is made" is a statement about that log.
    - [AgentManager.get_agent] (api.py) keeps one agent object per session
      key in a dictionary; objects live in a store and are named by
      references, so that "the same instance" is equality of references.

    Python data is kept as the interpreter has it: a [str] is a sequence of
    Unicode code points, a [float] is an IEEE-754 binary64 number, a [dict]
    is a finite map. *)

From Stdlib Require Import NArith String Ascii DecimalString Floats.
From stdpp Require Import base option list gmap.

Set Default Proof Using "Type".
Set Warnings "-register-all".
Local Open Scope N_scope.

(** ** Python strings *)

Module PyStr.

(** A Python 3 [str]: an immutable sequence of code points. *)
Definition str : Type := list N.

(** A source literal made of ASCII characters. *)
Definition lit (s : string) : str := N_of_ascii <$> list_ascii_of_string s.

(** The line feed that [\n] denotes inside a literal. *)
Definition nl : str := [10].

(** Truth value of a string: the empty string is the only false one. *)
Definition truthy (s : str) : bool :=
  match s with [] => false | _ :: _ => true end.

(** [str.isspace] on one code point: the characters that [str.strip()]
    removes when it is called without argument (U+0009..U+000D,
    U+001C..U+0020, U+0085, U+00A0, U+1680, U+2000..U+200A, U+2028,
    U+2029, U+202F, U+205F, U+3000). *)
Definition isspace (c : N) : bool :=
  ((9 <=? c) && (c <=? 13)) || ((28 <=? c) && (c <=? 32))
  || (c =? 133) || (c =? 160) || (c =? 5760)
  || ((8192 <=? c) && (c <=? 8202))
  || (c =? 8232) || (c =? 8233) || (c =? 8239) || (c =? 8287)
  || (c =? 12288).

Fixpoint lstrip (s : str) : str :=
  match s with
  | [] => []
  | c :: t => if isspace c then lstrip t else s
  end.

Definition rstrip (s : str) : str := reverse (lstrip (reverse s)).

(** [s.strip()] *)
Definition strip (s : str) : str := rstrip (lstrip s).

(** [s.startswith(p)] *)
Fixpoint startswith (p s : str) : bool :=
  match p, s with
  | [], _ => true
  | _ :: _, [] => false
  | a :: p', b :: s' => (a =? b) && startswith p' s'
  end.

(** [k in s] for two strings: [k] occurs in [s] as a contiguous run. *)
Fixpoint contains (k s : str) : bool :=
  startswith k s ||
  match s with
  | [] => false
  | _ :: s' => contains k s'
  end.

(** [sep.join(items)] *)
Fixpoint join (sep : str) (items : list str) : str :=
  match items with
  | [] => []
  | [x] => x
  | x :: rest => x ++ sep ++ join sep rest
  end.

(** [str(n)] for a non-negative integer, as an f-string field prints it. *)
Definition of_nat (n : nat) : str := lit (NilZero.string_of_uint (Nat.to_uint n)).

(** [str.lower] restricted to the code points below 256, where it is a
    per-character map: A..Z and the Latin-1 capitals U+00C0..U+00DE other
    than the multiplication sign U+00D7 move up by 32.  This is the
    instance used to run the examples; the theorems below hold for every
    lowering function. *)
Definition lower_char (c : N) : N :=
  if ((65 <=? c) && (c <=? 90))
     || ((192 <=? c) && (c <=? 222) && negb (c =? 215))
  then c + 32 else c.

Definition lower_latin1 (s : str) : str := lower_char <$> s.

End PyStr.
Import PyStr.

(** ** Python values, exceptions and the call log *)

(** IEEE-754 binary64, the representation of a Python [float]. *)
Abbreviation pyfloat := PrimFloat.float.

(** Values a vector-store payload may hold under a key (type [Any]). *)
Inductive pyval : Type :=
| VNone
| VBool (b : bool)
| VInt (z : Z)
| VFloat (x : pyfloat)
| VStr (s : str)
| VList (l : list pyval)
| VDict (d : list (str * pyval)).

(** Instances of Python's [Exception] class, the ones an [except Exception]
    clause catches.  The first three are raised by the interpreter itself;
    the last stands for whatever a client library raises. *)
Inductive Exception : Type :=
| IndexError          (* subscript 0 of an empty list *)
| AttributeError      (* a method looked up on a value that lacks it *)
| KeyError            (* a dictionary subscripted with a missing key *)
| ServiceError (detail : str).

(** A call either raises or returns. *)
Definition outcome (A : Type) : Type := Exception + A.
Definition raise {A} (e : Exception) : outcome A := inl e.
Definition returns {A} (a : A) : outcome A := inr a.

(** What the embedding call returns: [embed_response.embeddings]. *)
Record EmbedResponse := { embeddings : list (list pyfloat) }.

(** What the generation call returns: [response.text], possibly [None]. *)
Record ChatResponse := { text : option str }.

(** A neighbour returned by the vector search: [hit.score], [hit.payload]. *)
Record ScoredPoint := {
  hit_score : option pyfloat;
  hit_payload : option (gmap str pyval)
}.

(** The embedding and generation client ([cohere.Client]), by the keyword
    arguments the agent passes. *)
Record CohereClient := {
  embed : list str (* texts *) → str (* model *) → str (* input_type *)
          → outcome EmbedResponse;
  chat : str (* model *) → str (* message *) → pyfloat (* temperature *)
         → nat (* max_tokens *) → outcome ChatResponse
}.

(** The vector-store client ([QdrantClient]). *)
Record QdrantClient := {
  get_collections : outcome unit;
  search : str (* collection_name *) → list pyfloat (* query_vector *)
           → nat (* limit *) → bool (* with_payload *)
           → outcome (list ScoredPoint)
}.

(** One entry of the log per call issued to a hosted service. *)
Inductive Call : Type :=
| CallEmbed (texts : list str) (model input_type : str)
| CallSearch (collection : str) (query_vector : list pyfloat)
             (limit : nat) (with_payload : bool)
| CallChat (model message : str) (temperature : pyfloat) (max_tokens : nat).

Definition is_embed (c : Call) : bool :=
  match c with CallEmbed _ _ _ => true | _ => false end.
Definition is_search (c : Call) : bool :=
  match c with CallSearch _ _ _ _ => true | _ => false end.
Definition is_chat (c : Call) : bool :=
  match c with CallChat _ _ _ _ => true | _ => false end.

(** *** Computations that may raise and that log their service calls *)

Module Effects.

Definition Calls (A : Type) : Type := outcome A * list Call.

Definition pure {A} (a : A) : Calls A := (returns a, []).

Definition bind {A B} (m : Calls A) (k : A → Calls B) : Calls B :=
  match m with
  | (inl e, log) => (inl e, log)
  | (inr a, log) => let '(r, log') := k a in (r, log ++ log')
  end.

(** A step of the interpreter itself: it may raise, it calls nothing. *)
Definition lift {A} (o : outcome A) : Calls A := (o, []).

(** A service call: one log entry, then the service's outcome. *)
Definition call {A} (c : Call) (o : outcome A) : Calls A := (o, [c]).

(** [try: body / except Exception: return handler]: the statement always
    completes; calls issued before the exception stay issued. *)
Definition try_except {A} (body : Calls A) (handler : Exception → A)
  : A * list Call :=
  match body with
  | (inl e, log) => (handler e, log)
  | (inr a, log) => (a, log)
  end.

End Effects.
Import Effects.

Notation "x <- m ;; k" := (bind m (λ x, k))
  (at level 100, m at next level, right associativity, only parsing).

(** ** agent.py *)

(** The literals [query] returns. *)
Definition MSG_EMPTY : str := lit "Query cannot be empty.".

Definition MSG_GREETING : str :=
  lit "Hello! I'm your Book Assistant. "
  ++ lit "Ask me anything about ROS 2, humanoid robotics, or the course material.".

Definition MSG_OFF_TOPIC : str :=
  lit "I can only answer questions related to the book content. "
  ++ lit "Please ask about robotics, ROS 2, or the course material.".

(** The literal opens with U+26A0 U+FE0F, a warning sign. *)
Definition MSG_NOT_CONFIGURED : str :=
  [9888; 65039] ++ lit " AI services are not configured." ++ nl ++ nl
  ++ lit "Please set COHERE_API_KEY to enable question answering.".

Definition MSG_NO_CONTENT : str :=
  lit "No relevant book content found. "
  ++ lit "Try asking about ROS 2 or humanoid robotics.".

Definition MSG_NO_RESPONSE : str :=
  lit "No response generated. Please rephrase your question.".

Definition MSG_INTERNAL_ERROR : str :=
  lit "Sorry, I encountered an internal error while processing your request.".

(** [greetings], a set literal. *)
Definition greetings : gset str :=
  {[ lit "hello"; lit "hi"; lit "hey"; lit "good morning";
     lit "good evening"; lit "good afternoon" ]}.

(** [off_topic_keywords], a list literal. *)
Definition off_topic_keywords : list str :=
  [ lit "weather"; lit "joke"; lit "news"; lit "sports"; lit "movie";
    lit "celebrity"; lit "crypto"; lit "recipe"; lit "food"; lit "travel";
    lit "music"; lit "song"; lit "health"; lit "medical"; lit "exercise";
    lit "diet" ].

(** An element of [retrieved_content]: the dict with keys ["content"] and
    ["score"]. *)
Record Passage := { content : str; score : pyfloat }.

(** The score threshold [0.3] as the interpreter reads the literal: the
    binary64 number nearest to three tenths. *)
Definition SCORE_THRESHOLD : pyfloat := 0x1.3333333333333p-2%float.

(** [float(hit.score or 0.0)]: [None] and both zeros are false and give
    [0.0]; every other float, NaN included, is true and is kept. *)
Definition score_or_zero (s : option pyfloat) : pyfloat :=
  match s with
  | None => 0%float
  | Some x => if PrimFloat.eqb x 0%float then 0%float else x
  end.

(** [(hit.payload or {}).get("content", default)], the default being the
    empty string *)
Definition payload_content (p : option (gmap str pyval)) : pyval :=
  default (VStr []) (default ∅ p !! lit "content").

(** [text.strip()] on a payload value: only a [str] has the method. *)
Definition val_strip (v : pyval) : outcome str :=
  match v with
  | VStr s => returns (strip s)
  | _ => raise AttributeError
  end.

(** [text[:800]] on a value that is known to be a [str] by then. *)
Definition val_slice (n : nat) (v : pyval) : str :=
  match v with
  | VStr s => take n s
  | _ => []
  end.

(** The body of [for hit in hits], on the list built so far. *)
Definition visit_hit (retrieved_content : list Passage) (hit : ScoredPoint)
  : outcome (list Passage) :=
  let score := score_or_zero (hit_score hit) in
  if PrimFloat.leb SCORE_THRESHOLD score then
    let text := payload_content (hit_payload hit) in
    match val_strip text with
    | inl e => raise e
    | inr stripped =>
        if truthy stripped then
          returns (retrieved_content
                   ++ [{| content := val_slice 800 text; score := score |}])
        else returns retrieved_content
    end
  else returns retrieved_content.

(** The loop [for hit in hits: ...], appending to [retrieved_content]. *)
Fixpoint for_hits (hits : list ScoredPoint) (retrieved_content : list Passage)
  : outcome (list Passage) :=
  match hits with
  | [] => returns retrieved_content
  | hit :: rest =>
      match visit_hit retrieved_content hit with
      | inl e => raise e
      | inr retrieved_content' => for_hits rest retrieved_content'
      end
  end.

(** [f"[Excerpt {i+1}]:\n{item['content']}"] *)
Definition excerpt (i : nat) (item : Passage) : str :=
  lit "[Excerpt " ++ of_nat (i + 1) ++ lit "]:" ++ nl ++ content item.

(** The joined context block. *)
Definition build_context (retrieved_content : list Passage) : str :=
  join (nl ++ nl ++ lit "---" ++ nl ++ nl) (imap excerpt retrieved_content).

(** The f-string [rag_prompt]. *)
Definition build_prompt (context user_input : str) : str :=
  nl
  ++ lit "You are a helpful assistant that answers questions ONLY using the provided book excerpts below." ++ nl
  ++ nl
  ++ lit "BOOK EXCERPTS:" ++ nl
  ++ context ++ nl
  ++ nl
  ++ lit "USER QUESTION:" ++ nl
  ++ user_input ++ nl
  ++ nl
  ++ lit "INSTRUCTIONS:" ++ nl
  ++ lit "- Answer ONLY using information from the book excerpts." ++ nl
  ++ lit "- Do NOT use outside knowledge." ++ nl
  ++ lit "- Be concise and accurate." ++ nl
  ++ nl
  ++ lit "ANSWER:" ++ nl.

Definition EMBED_MODEL : str := lit "embed-english-v3.0".
Definition EMBED_INPUT_TYPE : str := lit "search_query".
Definition CHAT_MODEL : str := lit "command-a-03-2025".
Definition TEMPERATURE : pyfloat := 0x1.999999999999ap-3%float.
Definition MAX_TOKENS : nat := 500.
Definition SEARCH_LIMIT : nat := 5.

(** [embed_response.embeddings[0]] *)
Definition subscript0 {A} (l : list A) : outcome A :=
  match l with
  | [] => raise IndexError
  | x :: _ => returns x
  end.

(** The process configuration read at import time, and the two client
    constructors, which may raise. *)
Record Environment := {
  COHERE_API_KEY : option str;
  QDRANT_URL : option str;
  QDRANT_API_KEY : option str;
  QDRANT_COLLECTION : str;
  (** [cohere.Client(COHERE_API_KEY)] *)
  new_cohere : str → outcome CohereClient;
  (** [QdrantClient(url=..., api_key=..., timeout=30)] *)
  new_qdrant_url : str → option str → nat → outcome QdrantClient;
  (** [QdrantClient(host=..., port=int(...))], both read from the process
      environment inside the guarded block *)
  new_qdrant_host : outcome QdrantClient
}.

(** Truth value of an environment variable: unset and empty are false. *)
Definition env_set (v : option str) : bool :=
  match v with
  | Some s => truthy s
  | None => false
  end.

(** The fields of a [BookContentAgent] object. *)
Record BookContentAgent := {
  cohere_client : option CohereClient;
  qdrant : option QdrantClient
}.

Section Agent.

(** [str.lower] is the interpreter's: its case tables are no part of the
    repository, and nothing below depends on them. *)
Variable lower : str → str.

Variable env : Environment.

(** [_initialize_clients]: each client is built only when it is missing,
    and a constructor (or the connection probe) that raises leaves the
    field [None]. *)
Definition _initialize_clients (self : BookContentAgent) : BookContentAgent :=
  let cohere' :=
    match COHERE_API_KEY env, cohere_client self with
    | Some key, None =>
        if truthy key then
          match new_cohere env key with
          | inr c => Some c
          | inl _ => None
          end
        else None
    | _, current => current
    end in
  let qdrant' :=
    match qdrant self with
    | None =>
        let built :=
          match QDRANT_URL env with
          | Some url =>
              if truthy url
              then new_qdrant_url env url (QDRANT_API_KEY env) 30
              else new_qdrant_host env
          | None => new_qdrant_host env
          end in
        match built with
        | inr q =>
            match get_collections q with
            | inr _ => Some q
            | inl _ => None
            end
        | inl _ => None
        end
    | Some q => Some q
    end in
  {| cohere_client := cohere'; qdrant := qdrant' |}.

(** [BookContentAgent()] *)
Definition __init__ : BookContentAgent :=
  _initialize_clients {| cohere_client := None; qdrant := None |}.

Definition embed_call (user_input : str) : Call :=
  CallEmbed [user_input] EMBED_MODEL EMBED_INPUT_TYPE.

Definition search_call (query_vector : list pyfloat) : Call :=
  CallSearch (QDRANT_COLLECTION env) query_vector SEARCH_LIMIT true.

Definition chat_call (rag_prompt : str) : Call :=
  CallChat CHAT_MODEL rag_prompt TEMPERATURE MAX_TOKENS.

(** [response.text.strip() if response.text else empty], then
    [answer or "No response generated..."] *)
Definition answer_of (response : ChatResponse) : str :=
  let answer :=
    match text response with
    | Some t => if truthy t then strip t else []
    | None => []
    end in
  if truthy answer then answer else MSG_NO_RESPONSE.

(** The vector-search block: [retrieved_content] after it. *)
Definition retrieve (qdrant : option QdrantClient) (query_vector : list pyfloat)
  : Calls (list Passage) :=
  match qdrant with
  | Some q =>
      hits <- call (search_call query_vector)
                   (search q (QDRANT_COLLECTION env) query_vector
                           SEARCH_LIMIT true) ;;
      lift (for_hits hits [])
  | None => pure []
  end.

(** The body of the [try] block of [query]. *)
Definition rag_flow (cohere : CohereClient) (qdrant : option QdrantClient)
           (user_input : str) : Calls str :=
  embed_response <- call (embed_call user_input)
                         (embed cohere [user_input] EMBED_MODEL
                                EMBED_INPUT_TYPE) ;;
  query_vector <- lift (subscript0 (embeddings embed_response)) ;;
  retrieved_content <- retrieve qdrant query_vector ;;
  match retrieved_content with
  | [] => pure MSG_NO_CONTENT
  | _ :: _ =>
      let context := build_context retrieved_content in
      let rag_prompt := build_prompt context user_input in
      response <- call (chat_call rag_prompt)
                       (chat cohere CHAT_MODEL rag_prompt TEMPERATURE
                             MAX_TOKENS) ;;
      pure (answer_of response)
  end.

(** [BookContentAgent.query]: the returned string and the service calls
    issued on the way, in order. *)
Definition query (self : BookContentAgent) (user_input : str)
  : str * list Call :=
  if negb (truthy user_input) || negb (truthy (strip user_input)) then
    (MSG_EMPTY, [])
  else if bool_decide (strip (lower user_input) ∈ greetings) then
    (MSG_GREETING, [])
  else if existsb (λ k, contains k (lower user_input)) off_topic_keywords then
    (MSG_OFF_TOPIC, [])
  else
    match cohere_client self with
    | None => (MSG_NOT_CONFIGURED, [])
    | Some cohere =>
        try_except (rag_flow cohere (qdrant self) user_input)
                   (λ _, MSG_INTERNAL_ERROR)
    end.

End Agent.

(** ** api.py *)

(** Agent objects live in a store and are named by their position in it:
    two names are the same instance exactly when they are equal. *)
Definition ref : Type := nat.

(** The field of an [AgentManager]: [self.agents], a dictionary from session
    key to agent object. *)
Record AgentManager := { agents : gmap str ref }.

(** The part of the process state [get_agent] reads and writes. *)
Record Process := {
  objects : list BookContentAgent;
  agent_manager : AgentManager
}.

(** [agent_manager = AgentManager()] at import time. *)
Definition startup : Process :=
  {| objects := []; agent_manager := {| agents := ∅ |} |}.

(** What the process meets at the time of one request: how [print] fares
    on a line (the console may refuse it), how [traceback.print_exc] fares,
    and how the client constructors and the connection probe answer.  The
    constructors are run anew whenever an agent is built, so each request
    comes with its own. *)
Record Moment := {
  print_line : str → outcome unit;
  print_exc : outcome unit;
  environment : Environment
}.

(** [session_id or "default"]: [None] and the empty string are false. *)
Definition session_key (session_id : option str) : str :=
  match session_id with
  | Some s => if truthy s then s else lit "default"
  | None => lit "default"
  end.

(** [self.agents[key]] *)
Definition subscript (d : gmap str ref) (key : str) : outcome ref :=
  match d !! key with
  | Some r => returns r
  | None => raise KeyError
  end.

(** [AgentManager.get_agent]: the reference it returns, or the exception it
    raises, and the process state after the call.  Each branch first prints
    a line that shows the key; a [print] that raises ends the call there. *)
Definition get_agent (now : Moment) (p : Process) (session_id : option str)
  : outcome ref * Process :=
  let key := session_key session_id in
  if bool_decide (key ∉ dom (agents (agent_manager p))) then
    match print_line now (lit "Creating new agent for session: " ++ key) with
    | inl e => (raise e, p)
    | inr _ =>
        let p' :=
          {| objects := objects p ++ [__init__ (environment now)];
             agent_manager :=
               {| agents := <[key := length (objects p)]>
                              (agents (agent_manager p)) |} |} in
        (subscript (agents (agent_manager p')) key, p')
    end
  else
    match print_line now
                     (lit "Reusing existing agent for session: " ++ key) with
    | inl e => (raise e, p)
    | inr _ => (subscript (agents (agent_manager p)) key, p)
    end.

(** A run of requests, each resolving its agent at its own moment. *)
Definition get_agents (p : Process) (calls : list (Moment * option str))
  : Process :=
  foldl (λ p call, snd (get_agent (fst call) p (snd call))) p calls.

(** The process states that arise from start-up by calls of [get_agent]. *)
Inductive reachable : Process → Prop :=
| reachable_startup : reachable startup
| reachable_get_agent now p sid :
    reachable p → reachable (snd (get_agent now p sid)).

(** Every reference in the dictionary names an object of the store. *)
Definition refs_valid (p : Process) : Prop :=
  ∀ k r, agents (agent_manager p) !! k = Some r → (r < length (objects p))%nat.

(** The line [get_agent] prints for a session id in a given state. *)
Definition announcement (p : Process) (session_id : option str) : str :=
  if bool_decide (session_key session_id ∉ dom (agents (agent_manager p)))
  then lit "Creating new agent for session: " ++ session_key session_id
  else lit "Reusing existing agent for session: " ++ session_key session_id.

(** ** The properties in the specification's words *)

(** [k] occurs in [s] as a contiguous run of characters. *)
Definition substring (k s : str) : Prop := ∃ l r, s = l ++ k ++ r.

(** The input is empty or made of whitespace only. *)
Definition blank (s : str) : Prop := Forall (λ c, isspace c = true) s.

Section Rules.

Variable lower : str → str.

(** The lower-cased, trimmed input is one of the greeting phrases. *)
Definition is_greeting (s : str) : Prop := strip (lower s) ∈ greetings.

(** The lower-cased input contains a blocked keyword. *)
Definition has_blocked_keyword (s : str) : Prop :=
  ∃ k, k ∈ off_topic_keywords ∧ substring k (lower s).

(** None of the four early returns fires: the input is handed to the
    retrieval-augmented flow of the configured client [cohere]. *)
Definition reaches_rag_flow (self : BookContentAgent) (s : str)
           (cohere : CohereClient) : Prop :=
  strip s ≠ [] ∧ ¬ is_greeting s ∧ ¬ has_blocked_keyword s
  ∧ cohere_client self = Some cohere.

End Rules.

(** The payload's content when it is a string, the empty string otherwise. *)
Definition hit_text (h : ScoredPoint) : str :=
  match payload_content (hit_payload h) with
  | VStr s => s
  | _ => []
  end.

(** The neighbour has a score, and it is at least the threshold. *)
Definition score_qualifies (h : ScoredPoint) : bool :=
  match hit_score h with
  | Some x => PrimFloat.leb SCORE_THRESHOLD x
  | None => false
  end.

(** Score at least 0.30 and content non-empty after stripping. *)
Definition kept (h : ScoredPoint) : bool :=
  score_qualifies h && truthy (strip (hit_text h)).

(** The passage made from a kept neighbour: its first 800 characters. *)
Definition passage_of (h : ScoredPoint) : Passage :=
  {| content := take 800 (hit_text h);
     score := default 0%float (hit_score h) |}.

(** What one neighbour contributes to the retained passages. *)
Definition turn (h : ScoredPoint) : list Passage :=
  if kept h then [passage_of h] else [].

(** The retained passages as the specification describes them: the kept
    neighbours in search-result order, each truncated. *)
Definition retained_passages (hits : list ScoredPoint) : list Passage :=
  passage_of <$> List.filter kept hits.

(** The payload of a neighbour that passes the score test holds text under
    ["content"], or nothing. *)
Definition content_is_text (h : ScoredPoint) : Prop :=
  score_qualifies h = true → ∃ s, payload_content (hit_payload h) = VStr s.

(** The trimmed response text, or the fixed message when nothing is left. *)
Definition trimmed_or_no_response (response : ChatResponse) : str :=
  match text response with
  | Some t =>
      match strip t with
      | [] => MSG_NO_RESPONSE
      | c :: rest => c :: rest
      end
  | None => MSG_NO_RESPONSE
  end.

(** The guarded block once the retrieval block has run with outcome
    [retrieved]: a restatement of the tail of [rag_flow] used to reason
    about it by cases. *)
Definition after_retrieval (cohere : CohereClient) (s : str)
           (retrieved : Calls (list Passage)) : Calls str :=
  match retrieved with
  | (inl e, log) => (inl e, embed_call s :: log)
  | (inr [], log) => (inr MSG_NO_CONTENT, embed_call s :: log)
  | (inr (p :: ps), log) =>
      let rag_prompt := build_prompt (build_context (p :: ps)) s in
      (match chat cohere CHAT_MODEL rag_prompt TEMPERATURE MAX_TOKENS with
       | inl e => inl e
       | inr response => inr (answer_of response)
       end, embed_call s :: log ++ [chat_call rag_prompt])
  end.

(** ** Sample services and inputs *)

Module Sample.

Definition hit (s : pyfloat) (c : str) : ScoredPoint :=
  {| hit_score := Some s;
     hit_payload := Some {[ lit "content" := VStr c ]} |}.

(** Three neighbours scored 0.5, 0.2 and 0.4. *)
Definition hits : list ScoredPoint :=
  [ hit 0x1p-1%float (lit "ROS 2 nodes exchange messages over topics.");
    hit 0x1.999999999999ap-3%float (lit "Unrelated appendix.");
    hit 0x1.999999999999ap-2%float (lit "A humanoid needs balance control.") ].

(** Neighbours that are all below the threshold or without text. *)
Definition weak_hits : list ScoredPoint :=
  [ hit 0x1.999999999999ap-3%float (lit "Unrelated appendix.");
    hit 0x1p-1%float (lit "   ");
    {| hit_score := None; hit_payload := None |} ].

Definition vector : list pyfloat := [1%float; 0%float].

Definition reply : ChatResponse :=
  {| text := Some (lit "  Nodes talk over topics.  ") |}.

Definition cohere : CohereClient :=
  {| embed := λ _ _ _, returns {| embeddings := [vector] |};
     chat := λ _ _ _ _, returns reply |}.

Definition cohere_embed_down : CohereClient :=
  {| embed := λ _ _ _, raise (ServiceError (lit "embed unavailable"));
     chat := λ _ _ _ _, returns reply |}.

Definition cohere_chat_down : CohereClient :=
  {| embed := λ _ _ _, returns {| embeddings := [vector] |};
     chat := λ _ _ _ _, raise (ServiceError (lit "chat unavailable")) |}.

Definition qdrant_with (result : outcome (list ScoredPoint)) : QdrantClient :=
  {| get_collections := returns tt;
     search := λ _ _ _ _, result |}.

Definition env : Environment :=
  {| COHERE_API_KEY := Some (lit "key");
     QDRANT_URL := None;
     QDRANT_API_KEY := None;
     QDRANT_COLLECTION := lit "book_embeddings";
     new_cohere := λ _, returns cohere;
     new_qdrant_url := λ _ _ _, returns (qdrant_with (returns hits));
     new_qdrant_host := returns (qdrant_with (returns hits)) |}.

Definition agent (c : option CohereClient) (q : option QdrantClient)
  : BookContentAgent :=
  {| cohere_client := c; qdrant := q |}.

Definition question : str := lit "What is a ROS 2 node?".

(** Both clients configured; the search returns [hits]. *)
Definition agent_ready : BookContentAgent :=
  agent (Some cohere) (Some (qdrant_with (returns hits))).

(** Both clients configured; the search returns [weak_hits]. *)
Definition agent_weak : BookContentAgent :=
  agent (Some cohere) (Some (qdrant_with (returns weak_hits))).

(** The generation call raises. *)
Definition agent_chat_down : BookContentAgent :=
  agent (Some cohere_chat_down) (Some (qdrant_with (returns hits))).

(** No vector store. *)
Definition agent_no_store : BookContentAgent := agent (Some cohere) None.

(** No vector store, and the embedding call raises. *)
Definition agent_no_store_embed_down : BookContentAgent :=
  agent (Some cohere_embed_down) None.

(** No generation client. *)
Definition agent_unconfigured : BookContentAgent :=
  agent None (Some (qdrant_with (returns hits))).

(** The prompt built from the passages retained out of [hits]. *)
Definition prompt : str :=
  build_prompt (build_context (retained_passages hits)) question.

(** A moment at which the console takes every line and the services are
    those of [env]. *)
Definition moment : Moment :=
  {| print_line := λ _, returns tt;
     print_exc := returns tt;
     environment := env |}.

(** The process after a request of session "alice" and one without
    session id. *)
Definition process : Process :=
  get_agents startup [(moment, Some (lit "alice")); (moment, None)].

End Sample.

(** ** api.py: the request handler *)

(** The request body of [POST /query]. *)
Module QueryRequest.
Record t := {
  query : str;
  session_id : option str;
  metadata : option (gmap str pyval)
}.
End QueryRequest.

(** The response envelope. *)
Module QueryResponse.
Record t := {
  response : str;
  sources : list str;
  session_id : option str;
  timestamp : str;
  status : str
}.
End QueryResponse.

(** [HTTPException(status_code=..., detail=...)] *)
Record HTTPException := { status_code : nat; detail : str }.

Definition BAD_REQUEST : HTTPException :=
  {| status_code := 400; detail := lit "Query cannot be empty" |}.

Definition INTERNAL_SERVER_ERROR : HTTPException :=
  {| status_code := 500; detail := lit "Internal server error" |}.

(** What a call of the handler ends in. *)
Inductive Answer : Type :=
| Responded (envelope : QueryResponse.t)   (* the returned envelope *)
| Refused (error : HTTPException)          (* a raised [HTTPException] *)
| Escaped (e : Exception).                 (* an exception of the handler *)

Section Endpoint.

Variable lower : str → str.

(** [datetime.utcnow().isoformat()] at the time the envelope is built. *)
Variable utcnow : str.

(** The [except Exception] clause of [query_endpoint]: it prints a line and
    the traceback, then raises the 500 error; a print that raises there
    escapes instead. *)
Definition on_exception (now : Moment) : Answer :=
  match print_line now (lit "ERROR in /query") with
  | inl e => Escaped e
  | inr _ =>
      match print_exc now with
      | inl e => Escaped e
      | inr _ => Refused INTERNAL_SERVER_ERROR
      end
  end.

(** [query_endpoint]: how the call ends, the process state after it, and
    the service calls issued.  The emptiness test stands before the [try];
    everything after it is guarded.  Reading an object through a reference
    that names nothing counts as an exception here; Python has no such
    references, and none arises from start-up. *)
Definition query_endpoint (now : Moment) (p : Process)
           (request : QueryRequest.t) : Answer * Process * list Call :=
  if negb (truthy (strip (QueryRequest.query request))) then
    (Refused BAD_REQUEST, p, [])
  else
    let '(found, p') := get_agent now p (QueryRequest.session_id request) in
    match found with
    | inr r =>
        match objects p' !! r with
        | Some agent =>
            let '(response_text, log) :=
              query lower (environment now) agent
                    (QueryRequest.query request) in
            (Responded {| QueryResponse.response := response_text;
                          QueryResponse.sources := [];
                          QueryResponse.session_id :=
                            QueryRequest.session_id request;
                          QueryResponse.timestamp := utcnow;
                          QueryResponse.status := lit "success" |}, p', log)
        | None => (on_exception now, p', [])
        end
    | inl _ => (on_exception now, p', [])
    end.

End Endpoint.

(** ** Further notions used to state properties *)

(** The vector-store client that the guarded block of [_initialize_clients]
    builds: by URL when [QDRANT_URL] is set, by host and port otherwise. *)
Definition connect_qdrant (env : Environment) : outcome QdrantClient :=
  match QDRANT_URL env with
  | Some url =>
      if truthy url
      then new_qdrant_url env url (QDRANT_API_KEY env) 30
      else new_qdrant_host env
  | None => new_qdrant_host env
  end.

(** The seven literals [query] can return. *)
Definition fixed_messages : list str :=
  [ MSG_EMPTY; MSG_GREETING; MSG_OFF_TOPIC; MSG_NOT_CONFIGURED;
    MSG_NO_CONTENT; MSG_NO_RESPONSE; MSG_INTERNAL_ERROR ].

(** A neighbour that passes the score test with a payload value under
    ["content"] that is no string. *)
Definition malformed (h : ScoredPoint) : Prop :=
  score_qualifies h = true ∧ ∀ s, payload_content (hit_payload h) ≠ VStr s.

(** ** More sample data *)

Module Fixture.

(** No generation key in the environment. *)
Definition env_no_key : Environment :=
  {| COHERE_API_KEY := None;
     QDRANT_URL := Sample.env.(QDRANT_URL);
     QDRANT_API_KEY := None;
     QDRANT_COLLECTION := lit "book_embeddings";
     new_cohere := λ _, returns Sample.cohere;
     new_qdrant_url := λ _ _ _, returns (Sample.qdrant_with (returns Sample.hits));
     new_qdrant_host := returns (Sample.qdrant_with (returns Sample.hits)) |}.

(** The vector store cannot be reached at start-up. *)
Definition env_store_down : Environment :=
  {| COHERE_API_KEY := Some (lit "key");
     QDRANT_URL := None;
     QDRANT_API_KEY := None;
     QDRANT_COLLECTION := lit "book_embeddings";
     new_cohere := λ _, returns Sample.cohere;
     new_qdrant_url := λ _ _ _, returns (Sample.qdrant_with (returns Sample.hits));
     new_qdrant_host := raise (ServiceError (lit "connection refused")) |}.

(** The embedding call fails for agents built from this environment. *)
Definition env_embed_down : Environment :=
  {| COHERE_API_KEY := Some (lit "key");
     QDRANT_URL := None;
     QDRANT_API_KEY := None;
     QDRANT_COLLECTION := lit "book_embeddings";
     new_cohere := λ _, returns Sample.cohere_embed_down;
     new_qdrant_url := λ _ _ _, returns (Sample.qdrant_with (returns Sample.hits));
     new_qdrant_host := returns (Sample.qdrant_with (returns Sample.hits)) |}.

(** A payload whose content is a number, under a score of 0.5. *)
Definition bad_hit : ScoredPoint :=
  {| hit_score := Some 0x1p-1%float;
     hit_payload := Some {[ lit "content" := VInt 7 ]} |}.

(** The same payload under a score of 0.2. *)
Definition bad_weak_hit : ScoredPoint :=
  {| hit_score := Some 0x1.999999999999ap-3%float;
     hit_payload := Some {[ lit "content" := VInt 7 ]} |}.

(** Eight hundred spaces. *)
Definition padding : str := replicate 800 32.

(** Text that starts with 800 spaces, under a score of 0.5. *)
Definition padded_hit : ScoredPoint :=
  Sample.hit 0x1p-1%float (padding ++ lit "late text").

Definition agent_bad_payload : BookContentAgent :=
  Sample.agent (Some Sample.cohere)
    (Some (Sample.qdrant_with (returns (Sample.hits ++ [bad_hit])))).

Definition agent_bad_weak_payload : BookContentAgent :=
  Sample.agent (Some Sample.cohere)
    (Some (Sample.qdrant_with (returns [bad_weak_hit]))).

Definition request : QueryRequest.t :=
  {| QueryRequest.query := Sample.question;
     QueryRequest.session_id := Some (lit "alice");
     QueryRequest.metadata := None |}.

Definition blank_request : QueryRequest.t :=
  {| QueryRequest.query := [32; 10];
     QueryRequest.session_id := Some (lit "carol");
     QueryRequest.metadata := None |}.

Definition now : str := lit "2024-01-01T00:00:00".

(** The console takes every line; agents built now cannot embed. *)
Definition moment_embed_down : Moment :=
  {| print_line := λ _, returns tt;
     print_exc := returns tt;
     environment := env_embed_down |}.

(** The standard output refuses every line; the traceback still prints. *)
Definition moment_console_down : Moment :=
  {| print_line := λ _, raise (ServiceError (lit "stdout closed"));
     print_exc := returns tt;
     environment := Sample.env |}.

(** The console refuses lines that announce a new agent and takes the
    others. *)
Definition moment_no_announcement : Moment :=
  {| print_line := λ line,
       if startswith (lit "Creating") line
       then raise (ServiceError (lit "stdout closed"))
       else returns tt;
     print_exc := returns tt;
     environment := Sample.env |}.

Definition bob_request : QueryRequest.t :=
  {| QueryRequest.query := Sample.question;
     QueryRequest.session_id := Some (lit "bob");
     QueryRequest.metadata := None |}.

End Fixture.

(** Literals and the prompt stay folded when goals are simplified. *)
Arguments lit : simpl never.
Arguments MSG_EMPTY : simpl never.
Arguments MSG_GREETING : simpl never.
Arguments MSG_OFF_TOPIC : simpl never.
Arguments MSG_NOT_CONFIGURED : simpl never.
Arguments MSG_NO_CONTENT : simpl never.
Arguments MSG_NO_RESPONSE : simpl never.
Arguments MSG_INTERNAL_ERROR : simpl never.
Arguments build_prompt : simpl never.
Arguments build_context : simpl never.
Arguments strip : simpl never.

(** * Properties *)

(** ** Strings *)

Example strip_example : strip (lit "  Hi there  ") = lit "Hi there".
Proof. reflexivity. Qed.

Example contains_example : contains (lit "news") (lit "my newsletter") = true.
Proof. reflexivity. Qed.

Example of_nat_example : of_nat 12 = lit "12".
Proof. reflexivity. Qed.

Lemma lstrip_blank s : blank s → lstrip s = [].
Proof.
  induction 1 as [|c t Hc _ IH]; simpl; [done|]. by rewrite Hc.
Qed.

Lemma lstrip_head s c t : lstrip s = c :: t → isspace c = false.
Proof.
  induction s as [|a s IH]; simpl; [done|].
  destruct (isspace a) eqn:Ha; [done|]. by intros [= <- _].
Qed.

Lemma lstrip_nil s : lstrip s = [] → blank s.
Proof.
  induction s as [|a s IH]; simpl; [constructor|].
  destruct (isspace a) eqn:Ha; [|done].
  intros Hs. constructor; [done|by apply IH].
Qed.

Lemma blank_reverse s : blank (reverse s) ↔ blank s.
Proof. unfold blank. by rewrite Forall_reverse. Qed.

Lemma rstrip_nil s : rstrip s = [] ↔ blank s.
Proof.
  unfold rstrip. split.
  - intros H. apply blank_reverse, lstrip_nil.
    apply (f_equal reverse) in H. by rewrite reverse_involutive in H.
  - intros H. by rewrite lstrip_blank; [|apply blank_reverse].
Qed.

(** Stripping leaves nothing exactly when the string is blank. *)
Lemma strip_nil s : strip s = [] ↔ blank s.
Proof.
  unfold strip. rewrite rstrip_nil. split.
  - intros H. destruct (lstrip s) as [|c t] eqn:E; [by apply lstrip_nil|].
    apply lstrip_head in E. inversion H; congruence.
  - intros H. rewrite (lstrip_blank _ H). constructor.
Qed.

Lemma truthy_false (s : str) : truthy s = false ↔ s = [].
Proof. by destruct s. Qed.

Lemma truthy_true (s : str) : truthy s = true ↔ s ≠ [].
Proof. by destruct s. Qed.

Lemma strip_of_nil_input s : s = [] → strip s = [].
Proof. by intros ->. Qed.

Lemma startswith_spec p s : startswith p s = true ↔ ∃ r, s = p ++ r.
Proof.
  revert s. induction p as [|a p IH]; intros s; simpl.
  - split; [eauto|done].
  - destruct s as [|b s].
    + split; [done|]. by intros [r ?].
    + rewrite andb_true_iff, N.eqb_eq, IH. split.
      * intros [-> [r ->]]. by exists r.
      * intros [r [= -> ->]]. eauto.
Qed.

(** The membership test [k in s] is the substring relation. *)
Lemma contains_spec k s : contains k s = true ↔ substring k s.
Proof.
  unfold substring. induction s as [|b s IH]; simpl.
  - rewrite orb_false_r, startswith_spec. split.
    + intros [r ->]. by exists [], r.
    + intros [l [r H]]. symmetry in H.
      apply app_eq_nil in H as [-> H]. apply app_eq_nil in H as [-> ->].
      by exists [].
  - rewrite orb_true_iff, startswith_spec, IH. split.
    + intros [[r ->]|[l [r ->]]]; [by exists [], r|by exists (b :: l), r].
    + intros [[|c l] [r H]]; simpl in H.
      * left. eauto.
      * right. injection H as -> ->. eauto.
Qed.

Section RuleTests.

Variable lower : str → str.

(** The [any(...)] test of [query] decides [has_blocked_keyword]. *)
Lemma off_topic_test s :
  existsb (λ k, contains k (lower s)) off_topic_keywords = true
  ↔ has_blocked_keyword lower s.
Proof.
  unfold has_blocked_keyword. rewrite existsb_exists. split.
  - intros [k [Hk Hc]]. exists k. split; [by apply list_elem_of_In|].
    by apply contains_spec.
  - intros [k [Hk Hc]]. exists k. split; [by apply list_elem_of_In|].
    by apply contains_spec.
Qed.

Lemma off_topic_test_false s :
  ¬ has_blocked_keyword lower s →
  existsb (λ k, contains k (lower s)) off_topic_keywords = false.
Proof.
  intros H. apply not_true_is_false. by rewrite off_topic_test.
Qed.

End RuleTests.

(** ** The early returns of [query] *)

Section QueryRules.

Variable lower : str → str.
Variable env : Environment.

Lemma empty_test_false s :
  strip s ≠ [] → negb (truthy s) || negb (truthy (strip s)) = false.
Proof.
  intros H. apply orb_false_iff. split; apply negb_false_iff, truthy_true.
  - intros ->. by apply H.
  - done.
Qed.

Lemma empty_test_true s :
  blank s → negb (truthy s) || negb (truthy (strip s)) = true.
Proof.
  intros H. apply orb_true_iff. right.
  apply negb_true_iff, truthy_false. by apply strip_nil.
Qed.

Lemma greeting_test_false s :
  ¬ is_greeting lower s →
  bool_decide (strip (lower s) ∈ greetings) = false.
Proof. intros H. by apply bool_decide_eq_false. Qed.

(** Past the four early returns [query] is the guarded block. *)
Lemma query_enters_rag_flow self s cohere :
  reaches_rag_flow lower self s cohere →
  query lower env self s
  = try_except (rag_flow env cohere (qdrant self) s) (λ _, MSG_INTERNAL_ERROR).
Proof.
  intros (Hs & Hg & Hk & Hc). unfold query.
  rewrite (empty_test_false _ Hs), (greeting_test_false _ Hg).
  rewrite (off_topic_test_false _ _ Hk), Hc. done.
Qed.

End QueryRules.

(** ** The retrieval-augmented flow, step by step *)

Section Flow.

Variable env : Environment.

Lemma answer_of_trimmed response :
  answer_of response = trimmed_or_no_response response.
Proof.
  unfold answer_of, trimmed_or_no_response.
  destruct (text response) as [[|c t]|]; [done| |done].
  simpl. by destruct (strip (c :: t)).
Qed.

(** The retrieval block issues at most the search call. *)
Lemma retrieve_unconfigured v : retrieve env None v = (inr [], []).
Proof. done. Qed.

Lemma retrieve_search_raises q v e :
  search q (QDRANT_COLLECTION env) v SEARCH_LIMIT true = inl e →
  retrieve env (Some q) v = (inl e, [search_call env v]).
Proof. intros H. unfold retrieve, bind, call. by rewrite H. Qed.

Lemma retrieve_search_returns q v hits :
  search q (QDRANT_COLLECTION env) v SEARCH_LIMIT true = inr hits →
  retrieve env (Some q) v = (for_hits hits [], [search_call env v]).
Proof. intros H. unfold retrieve, bind, call, lift. by rewrite H. Qed.

Lemma retrieve_never_chats q v :
  Forall (λ c, is_chat c = false) (snd (retrieve env q v)).
Proof.
  destruct q as [q|]; [|constructor].
  destruct (search q (QDRANT_COLLECTION env) v SEARCH_LIMIT true) as [e|hits] eqn:E.
  - rewrite (retrieve_search_raises _ _ _ E). by repeat constructor.
  - rewrite (retrieve_search_returns _ _ _ E). by repeat constructor.
Qed.

Lemma rag_flow_embed_raises cohere q s e :
  embed cohere [s] EMBED_MODEL EMBED_INPUT_TYPE = inl e →
  rag_flow env cohere q s = (inl e, [embed_call s]).
Proof. intros H. unfold rag_flow, bind, call. by rewrite H. Qed.

Lemma rag_flow_no_vector cohere q s er :
  embed cohere [s] EMBED_MODEL EMBED_INPUT_TYPE = inr er →
  embeddings er = [] →
  rag_flow env cohere q s = (inl IndexError, [embed_call s]).
Proof.
  intros H1 H2. unfold rag_flow, bind, call, lift. by rewrite H1, H2.
Qed.

Lemma rag_flow_embedded cohere q s er v rest :
  embed cohere [s] EMBED_MODEL EMBED_INPUT_TYPE = inr er →
  embeddings er = v :: rest →
  rag_flow env cohere q s = after_retrieval cohere s (retrieve env q v).
Proof.
  intros H1 H2. unfold rag_flow, after_retrieval, bind, call, lift, pure.
  rewrite H1. simpl. rewrite H2. simpl.
  destruct (retrieve env q v) as [[e|[|p ps]] log]; simpl.
  - done.
  - by rewrite app_nil_r.
  - destruct (chat cohere _ _ _ _); simpl; by rewrite ?app_nil_r.
Qed.

End Flow.

(** ** The score and content filter *)

Lemma threshold_rejects_zero :
  PrimFloat.leb SCORE_THRESHOLD 0%float = false.
Proof. reflexivity. Qed.

(** A float that compares equal to zero is below the threshold. *)
Lemma zero_below_threshold x :
  PrimFloat.eqb x 0%float = true → PrimFloat.leb SCORE_THRESHOLD x = false.
Proof.
  rewrite FloatAxioms.eqb_spec, FloatAxioms.leb_spec.
  destruct (Prim2SF x) as [sg|sg| |sg m e]; vm_compute;
    intros H; try done; by destruct sg.
Qed.

(** The test [score >= 0.3] on [float(hit.score or 0.0)] is the test on the
    score itself; [or 0.0] changes nothing that passes it. *)
Lemma score_test h :
  PrimFloat.leb SCORE_THRESHOLD (score_or_zero (hit_score h))
  = score_qualifies h.
Proof.
  unfold score_qualifies, score_or_zero.
  destruct (hit_score h) as [x|]; [|apply threshold_rejects_zero].
  destruct (PrimFloat.eqb x 0) eqn:E; [|done].
  by rewrite threshold_rejects_zero, zero_below_threshold.
Qed.

Lemma qualifying_score h :
  score_qualifies h = true →
  score_or_zero (hit_score h) = default 0%float (hit_score h).
Proof.
  unfold score_qualifies, score_or_zero.
  destruct (hit_score h) as [x|]; [|done]. simpl.
  destruct (PrimFloat.eqb x 0) eqn:E; [|done].
  by rewrite zero_below_threshold.
Qed.

Lemma visit_hit_returns acc h r :
  visit_hit acc h = inr r → r = acc ++ turn h.
Proof.
  unfold visit_hit, turn, kept, passage_of, hit_text.
  rewrite score_test. destruct (score_qualifies h) eqn:Hq; simpl.
  - rewrite (qualifying_score _ Hq).
    destruct (payload_content (hit_payload h)); simpl; try done.
    destruct (truthy (strip s)); intros [= <-]; [done|by rewrite app_nil_r].
  - intros [= <-]. by rewrite app_nil_r.
Qed.

Lemma visit_hit_text acc h :
  content_is_text h → visit_hit acc h = inr (acc ++ turn h).
Proof.
  intros Ht. destruct (visit_hit acc h) as [e|r] eqn:E.
  - exfalso. revert E. unfold visit_hit. rewrite score_test.
    destruct (score_qualifies h) eqn:Hq; [|done].
    destruct (Ht Hq) as [s ->]. simpl. by destruct (truthy (strip s)).
  - by rewrite (visit_hit_returns _ _ _ E).
Qed.

(** A payload value without [strip] under a qualifying score aborts the
    loop. *)
Lemma visit_hit_raises acc h :
  ¬ content_is_text h → visit_hit acc h = inl AttributeError.
Proof.
  intros Hn. unfold visit_hit. rewrite score_test.
  destruct (score_qualifies h) eqn:Hq.
  - destruct (payload_content (hit_payload h)) eqn:Ep; simpl; try done.
    exfalso. apply Hn. unfold content_is_text. rewrite Ep. eauto.
  - exfalso. apply Hn. unfold content_is_text. by rewrite Hq.
Qed.

Lemma retained_passages_cons h hits :
  retained_passages (h :: hits) = turn h ++ retained_passages hits.
Proof.
  unfold retained_passages, turn. simpl. by destruct (kept h).
Qed.

Lemma for_hits_returns hits : ∀ acc r,
  for_hits hits acc = inr r → r = acc ++ retained_passages hits.
Proof.
  induction hits as [|h hits IH]; intros acc r; simpl.
  - intros [= <-]. by rewrite app_nil_r.
  - destruct (visit_hit acc h) as [e|acc'] eqn:E; [done|].
    intros Hr. apply IH in Hr. apply visit_hit_returns in E. subst.
    by rewrite retained_passages_cons, app_assoc.
Qed.

Lemma for_hits_text hits : ∀ acc,
  Forall content_is_text hits →
  for_hits hits acc = inr (acc ++ retained_passages hits).
Proof.
  induction hits as [|h hits IH]; intros acc Hall; simpl.
  - by rewrite app_nil_r.
  - inversion_clear Hall as [|?? Hh Hrest].
    rewrite (visit_hit_text _ _ Hh), (IH _ Hrest).
    by rewrite retained_passages_cons, app_assoc.
Qed.

Lemma visit_hit_returns_text acc h r :
  visit_hit acc h = inr r → content_is_text h.
Proof.
  intros Hr Hq. revert Hr. unfold visit_hit. rewrite score_test, Hq.
  destruct (payload_content (hit_payload h)); simpl; try done. eauto.
Qed.

(** The loop completes exactly when every neighbour that passes the score
    test holds text, and then it yields the retained passages. *)
Lemma for_hits_completes hits : ∀ acc r,
  for_hits hits acc = inr r
  ↔ Forall content_is_text hits ∧ r = acc ++ retained_passages hits.
Proof.
  intros acc r. split.
  - intros Hr. split; [|by apply for_hits_returns].
    revert acc Hr. induction hits as [|h hits IH]; intros acc; simpl.
    + constructor.
    + destruct (visit_hit acc h) as [e|acc'] eqn:E; [done|].
      intros Hr. constructor; [by eapply visit_hit_returns_text|by eapply IH].
  - intros [Ht ->]. by apply for_hits_text.
Qed.

Lemma retained_passages_truncated hits :
  Forall (λ p, (length (content p) ≤ 800)%nat) (retained_passages hits).
Proof.
  unfold retained_passages. apply Forall_fmap, Forall_forall.
  intros h _. simpl. rewrite length_take. lia.
Qed.

(** ** [query] along the retrieval-augmented flow *)

Section QueryFlow.

Variable lower : str → str.
Variable env : Environment.

Lemma query_after_embedding self s cohere er v rest :
  reaches_rag_flow lower self s cohere →
  embed cohere [s] EMBED_MODEL EMBED_INPUT_TYPE = inr er →
  embeddings er = v :: rest →
  query lower env self s
  = try_except (after_retrieval cohere s (retrieve env (qdrant self) v))
               (λ _, MSG_INTERNAL_ERROR).
Proof.
  intros Hr He Hv.
  by rewrite (query_enters_rag_flow _ _ _ _ _ Hr),
             (rag_flow_embedded _ _ _ _ _ _ _ He Hv).
Qed.

Lemma query_after_search self s cohere er v rest q hits :
  reaches_rag_flow lower self s cohere →
  embed cohere [s] EMBED_MODEL EMBED_INPUT_TYPE = inr er →
  embeddings er = v :: rest →
  qdrant self = Some q →
  search q (QDRANT_COLLECTION env) v SEARCH_LIMIT true = inr hits →
  query lower env self s
  = try_except (after_retrieval cohere s
                  (for_hits hits [], [search_call env v]))
               (λ _, MSG_INTERNAL_ERROR).
Proof.
  intros Hr He Hv Hq Hs.
  by rewrite (query_after_embedding _ _ _ _ _ _ Hr He Hv), Hq,
             (retrieve_search_returns _ _ _ _ Hs).
Qed.

End QueryFlow.

(** ** Facts about the sample inputs *)

Lemma sample_question_reaches c q :
  reaches_rag_flow lower_latin1 (Sample.agent (Some c) q) Sample.question c.
Proof.
  repeat split.
  - by vm_compute.
  - unfold is_greeting. intros H. apply (bool_decide_pack _) in H.
    by vm_compute in H.
  - intros H. apply off_topic_test in H. by vm_compute in H.
Qed.

Lemma sample_hits_text : Forall content_is_text Sample.hits.
Proof.
  repeat constructor; intros _; eexists; vm_compute; reflexivity.
Qed.

Lemma sample_weak_hits_text : Forall content_is_text Sample.weak_hits.
Proof.
  repeat constructor; intros H; try (eexists; vm_compute; reflexivity).
Qed.

(** With the Latin-1 lowering a greeting match already implies that the
    input is not blank. *)
Lemma lower_char_space c : isspace c = true → lower_char c = c.
Proof.
  unfold isspace, lower_char. intros Hc.
  destruct ((65 <=? c) && (c <=? 90)
            || (192 <=? c) && (c <=? 222) && negb (c =? 215)) eqn:E; [|done].
  exfalso. revert Hc E.
  rewrite !orb_true_iff, !andb_true_iff, !N.leb_le, !N.eqb_eq. lia.
Qed.

Lemma lower_latin1_blank s : blank s → blank (lower_latin1 s).
Proof.
  unfold blank, lower_latin1. intros H. apply Forall_fmap.
  eapply Forall_impl; [exact H|]. intros c Hc. simpl.
  by rewrite (lower_char_space _ Hc).
Qed.

Lemma greeting_not_blank s :
  is_greeting lower_latin1 s → strip s ≠ [].
Proof.
  intros Hg Hs. apply strip_nil, lower_latin1_blank, strip_nil in Hs.
  unfold is_greeting in Hg. rewrite Hs in Hg.
  apply (bool_decide_pack _) in Hg. by vm_compute in Hg.
Qed.

(** * The claims *)

(** ** The decision list *)

(** C5.  An input that is empty or consists only of whitespace gets exactly
    the fixed empty-query message, and no embedding, search or generation
    call is issued. *)
Theorem blank_query_rejected lower env self s :
  blank s → query lower env self s = (MSG_EMPTY, []).
Proof.
  intros H. unfold query. by rewrite (empty_test_true _ H).
Qed.

Lemma blank_query_rejected_witness :
  blank [32; 9; 10; 160]
  ∧ query lower_latin1 Sample.env Sample.agent_ready [32; 9; 10; 160]
    = (MSG_EMPTY, []).
Proof.
  assert (Hb : blank [32; 9; 10; 160]) by (by repeat constructor).
  split; [exact Hb|]. by apply blank_query_rejected.
Defined.

(** C6.  A non-empty input whose lower-cased, trimmed form is one of the
    greeting phrases gets the fixed greeting message (so the match ignores
    case and surrounding whitespace), without any service call. *)
Theorem greeting_shortcut lower env self s :
  strip s ≠ [] → is_greeting lower s →
  query lower env self s = (MSG_GREETING, []).
Proof.
  intros Hs Hg. unfold query. rewrite (empty_test_false _ Hs).
  by rewrite (bool_decide_eq_true_2 _ Hg).
Qed.

Lemma greeting_shortcut_witness :
  strip (lit "  Good MORNING " ++ nl) ≠ []
  ∧ is_greeting lower_latin1 (lit "  Good MORNING " ++ nl)
  ∧ query lower_latin1 Sample.env Sample.agent_ready
          (lit "  Good MORNING " ++ nl)
    = (MSG_GREETING, []).
Proof.
  assert (Hs : strip (lit "  Good MORNING " ++ nl) ≠ []) by (by vm_compute).
  assert (Hg : is_greeting lower_latin1 (lit "  Good MORNING " ++ nl)).
  { unfold is_greeting. apply (bool_decide_unpack _). by vm_compute. }
  split; [exact Hs|]. split; [exact Hg|]. by apply greeting_shortcut.
Defined.

(** C7.  A non-empty input that is no greeting and whose lower-cased form
    contains a blocked keyword as a substring gets the fixed off-topic
    refusal; the test precedes retrieval, so whatever clients the agent
    holds, no embedding, search or generation call is issued. *)
Theorem off_topic_refusal lower env self s :
  strip s ≠ [] → ¬ is_greeting lower s → has_blocked_keyword lower s →
  query lower env self s = (MSG_OFF_TOPIC, []).
Proof.
  intros Hs Hg Hk. unfold query.
  rewrite (empty_test_false _ Hs), (greeting_test_false _ _ Hg).
  apply off_topic_test in Hk. by rewrite Hk.
Qed.

Lemma off_topic_refusal_witness :
  strip (lit "Subscribe me to the robotics NEWSletter") ≠ []
  ∧ ¬ is_greeting lower_latin1 (lit "Subscribe me to the robotics NEWSletter")
  ∧ has_blocked_keyword lower_latin1
      (lit "Subscribe me to the robotics NEWSletter")
  ∧ query lower_latin1 Sample.env Sample.agent_ready
          (lit "Subscribe me to the robotics NEWSletter")
    = (MSG_OFF_TOPIC, []).
Proof.
  set (s := lit "Subscribe me to the robotics NEWSletter").
  assert (Hs : strip s ≠ []) by (by vm_compute).
  assert (Hg : ¬ is_greeting lower_latin1 s).
  { intros H. apply (bool_decide_pack _) in H. by vm_compute in H. }
  assert (Hk : has_blocked_keyword lower_latin1 s).
  { exists (lit "news"). split.
    - apply (bool_decide_unpack _). by vm_compute.
    - exists (lit "subscribe me to the robotics "), (lit "letter").
      by vm_compute. }
  split; [exact Hs|]. split; [exact Hg|]. split; [exact Hk|].
  by apply off_topic_refusal.
Defined.

(** C3.  With no generation client, an input that is non-empty after
    trimming, no greeting and free of blocked keywords gets the fixed
    service-unavailable message, and no embedding, search or generation call
    is issued. *)
Theorem unconfigured_client_stops lower env self s :
  cohere_client self = None →
  strip s ≠ [] → ¬ is_greeting lower s → ¬ has_blocked_keyword lower s →
  query lower env self s = (MSG_NOT_CONFIGURED, []).
Proof.
  intros Hc Hs Hg Hk. unfold query.
  rewrite (empty_test_false _ Hs), (greeting_test_false _ _ Hg).
  by rewrite (off_topic_test_false _ _ Hk), Hc.
Qed.

Lemma unconfigured_client_stops_witness :
  cohere_client Sample.agent_unconfigured = None
  ∧ strip Sample.question ≠ []
  ∧ ¬ is_greeting lower_latin1 Sample.question
  ∧ ¬ has_blocked_keyword lower_latin1 Sample.question
  ∧ query lower_latin1 Sample.env Sample.agent_unconfigured Sample.question
    = (MSG_NOT_CONFIGURED, []).
Proof.
  destruct (sample_question_reaches Sample.cohere None) as (Hs & Hg & Hk & _).
  split; [reflexivity|]. split; [exact Hs|]. split; [exact Hg|].
  split; [exact Hk|]. by apply unconfigured_client_stops.
Defined.

(** ** The retrieval-augmented flow *)

(** C1.  When the search (issued with limit 5) returns [hits], the retained
    passages are, in search-result order, exactly the neighbours whose score
    is at least 0.30 and whose content is non-empty after stripping, each
    cut to its first 800 characters; the generation prompt is built from
    that list and no other.  A score equal to the threshold qualifies.  The
    loop completes exactly when the content of every neighbour that passes
    the score test is text (or missing). *)
Theorem retained_passages_exact lower env self cohere q s er v rest hits :
  reaches_rag_flow lower self s cohere →
  embed cohere [s] EMBED_MODEL EMBED_INPUT_TYPE = inr er →
  embeddings er = v :: rest →
  qdrant self = Some q →
  search q (QDRANT_COLLECTION env) v 5%nat true = inr hits →
  (∀ retrieved,
      for_hits hits [] = inr retrieved
      ↔ Forall content_is_text hits ∧ retrieved = retained_passages hits)
  ∧ (Forall content_is_text hits →
     snd (query lower env self s)
     = embed_call s :: search_call env v ::
       match retained_passages hits with
       | [] => []
       | p :: ps => [chat_call (build_prompt (build_context (p :: ps)) s)]
       end)
  ∧ Forall (λ p, (length (content p) ≤ 800)%nat) (retained_passages hits)
  ∧ (length (retained_passages hits) ≤ length hits)%nat
  ∧ (∀ h, hit_score h = Some SCORE_THRESHOLD → score_qualifies h = true).
Proof.
  intros Hr He Hv Hq Hs.
  split; [intros retrieved; apply (for_hits_completes hits [])|].
  split; [|split; [|split]].
  - intros Ht.
    rewrite (query_after_search _ _ _ _ _ _ _ _ _ _ Hr He Hv Hq Hs).
    rewrite (for_hits_text hits [] Ht), app_nil_l.
    unfold after_retrieval, try_except.
    destruct (retained_passages hits) as [|p ps]; [done|].
    by destruct (chat cohere CHAT_MODEL
                      (build_prompt (build_context (p :: ps)) s)
                      TEMPERATURE MAX_TOKENS).
  - apply retained_passages_truncated.
  - unfold retained_passages. rewrite length_fmap.
    pose proof (List.filter_length kept hits). lia.
  - intros h Hh. unfold score_qualifies. by rewrite Hh.
Qed.

(** For scores 0.5, 0.2 and 0.4 the first and the third neighbour are
    retained. *)
Lemma retained_passages_exact_witness :
  reaches_rag_flow lower_latin1 Sample.agent_ready Sample.question
                   Sample.cohere
  ∧ Forall content_is_text Sample.hits
  ∧ for_hits Sample.hits []
    = inr [ {| content := lit "ROS 2 nodes exchange messages over topics.";
               score := 0x1p-1%float |};
            {| content := lit "A humanoid needs balance control.";
               score := 0x1.999999999999ap-2%float |} ]
  ∧ snd (query lower_latin1 Sample.env Sample.agent_ready Sample.question)
    = [ embed_call Sample.question;
        search_call Sample.env Sample.vector;
        chat_call Sample.prompt ].
Proof.
  pose proof (sample_question_reaches Sample.cohere
                (qdrant Sample.agent_ready)) as Hr.
  destruct (retained_passages_exact lower_latin1 Sample.env
              Sample.agent_ready Sample.cohere
              (Sample.qdrant_with (returns Sample.hits)) Sample.question
              {| embeddings := [Sample.vector] |} Sample.vector []
              Sample.hits Hr eq_refl eq_refl eq_refl eq_refl)
    as (Hloop & Hlog & _).
  split; [exact Hr|]. split; [exact sample_hits_text|].
  split; [|exact (Hlog sample_hits_text)].
  exact (proj2 (Hloop _) (conj sample_hits_text eq_refl)).
Defined.

(** C4.  When the retrieval block ends with no passage, the result is the
    fixed no-relevant-content message and the generation call is never
    issued.  In particular, when the search returns neighbours none of
    which survives the score and content filter, the log holds the
    embedding and the search call only. *)
Theorem no_passage_no_generation lower env self cohere s er v rest :
  reaches_rag_flow lower self s cohere →
  embed cohere [s] EMBED_MODEL EMBED_INPUT_TYPE = inr er →
  embeddings er = v :: rest →
  (∀ log,
      retrieve env (qdrant self) v = (inr [], log) →
      query lower env self s = (MSG_NO_CONTENT, embed_call s :: log)
      ∧ Forall (λ c, is_chat c = false) (snd (query lower env self s)))
  ∧ (∀ q hits,
      qdrant self = Some q →
      search q (QDRANT_COLLECTION env) v SEARCH_LIMIT true = inr hits →
      Forall content_is_text hits →
      List.filter kept hits = [] →
      query lower env self s
      = (MSG_NO_CONTENT, [embed_call s; search_call env v])).
Proof.
  intros Hr He Hv.
  pose proof (query_after_embedding lower env _ _ _ _ _ _ Hr He Hv) as Hquery.
  split.
  - intros log Hret.
    pose proof (retrieve_never_chats env (qdrant self) v) as Hnc.
    rewrite Hquery, Hret in *. simpl in *. split; [done|].
    by constructor.
  - intros q hits Hq Hs Ht Hnone.
    rewrite Hquery, Hq, (retrieve_search_returns _ _ _ _ Hs).
    rewrite (for_hits_text hits [] Ht). unfold retained_passages.
    by rewrite Hnone.
Qed.

Lemma no_passage_no_generation_witness :
  reaches_rag_flow lower_latin1 Sample.agent_weak Sample.question
                   Sample.cohere
  ∧ Forall content_is_text Sample.weak_hits
  ∧ List.filter kept Sample.weak_hits = []
  ∧ query lower_latin1 Sample.env Sample.agent_weak Sample.question
    = (MSG_NO_CONTENT,
       [embed_call Sample.question; search_call Sample.env Sample.vector]).
Proof.
  pose proof (sample_question_reaches Sample.cohere
                (qdrant Sample.agent_weak)) as Hr.
  assert (Hnone : List.filter kept Sample.weak_hits = []) by (by vm_compute).
  split; [exact Hr|]. split; [exact sample_weak_hits_text|].
  split; [exact Hnone|].
  exact (proj2 (no_passage_no_generation lower_latin1 Sample.env
                  Sample.agent_weak Sample.cohere Sample.question
                  {| embeddings := [Sample.vector] |} Sample.vector []
                  Hr eq_refl eq_refl)
               (Sample.qdrant_with (returns Sample.weak_hits))
               Sample.weak_hits eq_refl eq_refl sample_weak_hits_text Hnone).
Defined.

(** C2.  Past the early returns, an exception raised anywhere in the guarded
    block makes [query] return the fixed internal-error message and nothing
    else: when the embedding call raises, when it returns no vector, when
    the search call raises, when a payload value cannot be stripped, and
    when the generation call raises.  [query] itself always returns. *)
Theorem exception_gives_internal_error lower env self cohere s :
  reaches_rag_flow lower self s cohere →
  (∀ e log,
      rag_flow env cohere (qdrant self) s = (inl e, log) →
      query lower env self s = (MSG_INTERNAL_ERROR, log))
  ∧ (∀ e,
      embed cohere [s] EMBED_MODEL EMBED_INPUT_TYPE = inl e →
      query lower env self s = (MSG_INTERNAL_ERROR, [embed_call s]))
  ∧ (∀ er,
      embed cohere [s] EMBED_MODEL EMBED_INPUT_TYPE = inr er →
      embeddings er = [] →
      query lower env self s = (MSG_INTERNAL_ERROR, [embed_call s]))
  ∧ (∀ er v rest q e,
      embed cohere [s] EMBED_MODEL EMBED_INPUT_TYPE = inr er →
      embeddings er = v :: rest →
      qdrant self = Some q →
      search q (QDRANT_COLLECTION env) v SEARCH_LIMIT true = inl e →
      query lower env self s
      = (MSG_INTERNAL_ERROR, [embed_call s; search_call env v]))
  ∧ (∀ er v rest q hits e,
      embed cohere [s] EMBED_MODEL EMBED_INPUT_TYPE = inr er →
      embeddings er = v :: rest →
      qdrant self = Some q →
      search q (QDRANT_COLLECTION env) v SEARCH_LIMIT true = inr hits →
      for_hits hits [] = inl e →
      query lower env self s
      = (MSG_INTERNAL_ERROR, [embed_call s; search_call env v]))
  ∧ (∀ er v rest p ps log e,
      embed cohere [s] EMBED_MODEL EMBED_INPUT_TYPE = inr er →
      embeddings er = v :: rest →
      retrieve env (qdrant self) v = (inr (p :: ps), log) →
      chat cohere CHAT_MODEL (build_prompt (build_context (p :: ps)) s)
           TEMPERATURE MAX_TOKENS = inl e →
      query lower env self s
      = (MSG_INTERNAL_ERROR,
         embed_call s :: log
         ++ [chat_call (build_prompt (build_context (p :: ps)) s)])).
Proof.
  intros Hr. pose proof (query_enters_rag_flow lower env _ _ _ Hr) as Hq.
  split; [|split; [|split; [|split; [|split]]]].
  - intros e log H. by rewrite Hq, H.
  - intros e He. by rewrite Hq, (rag_flow_embed_raises _ _ _ _ _ He).
  - intros er He Hv. by rewrite Hq, (rag_flow_no_vector _ _ _ _ _ He Hv).
  - intros er v rest q e He Hv Hqd Hs.
    rewrite Hq, (rag_flow_embedded _ _ _ _ _ _ _ He Hv), Hqd.
    by rewrite (retrieve_search_raises _ _ _ _ Hs).
  - intros er v rest q hits e He Hv Hqd Hs Hloop.
    rewrite (query_after_search _ _ _ _ _ _ _ _ _ _ Hr He Hv Hqd Hs).
    by rewrite Hloop.
  - intros er v rest p ps log e He Hv Hret Hchat.
    rewrite Hq, (rag_flow_embedded _ _ _ _ _ _ _ He Hv), Hret.
    unfold after_retrieval, try_except. by rewrite Hchat.
Qed.

(** The generation service raising, on an otherwise valid flow. *)
Lemma exception_gives_internal_error_witness :
  reaches_rag_flow lower_latin1 Sample.agent_chat_down Sample.question
                   Sample.cohere_chat_down
  ∧ query lower_latin1 Sample.env Sample.agent_chat_down Sample.question
    = (MSG_INTERNAL_ERROR,
       [ embed_call Sample.question;
         search_call Sample.env Sample.vector;
         chat_call Sample.prompt ]).
Proof.
  pose proof (sample_question_reaches Sample.cohere_chat_down
                (qdrant Sample.agent_chat_down)) as Hr.
  split; [exact Hr|].
  destruct (exception_gives_internal_error lower_latin1 Sample.env
              Sample.agent_chat_down Sample.cohere_chat_down
              Sample.question Hr)
    as (_ & _ & _ & _ & _ & Hchat).
  exact (Hchat {| embeddings := [Sample.vector] |} Sample.vector [] _ _
               [search_call Sample.env Sample.vector]
               (ServiceError (lit "chat unavailable"))
               eq_refl eq_refl eq_refl eq_refl).
Defined.

(** The generation call, when it appears in the log, is the last call of
    the guarded block and carries the fixed model and sampling settings. *)
Lemma logged_chat_call lower env self cohere s m p t k :
  cohere_client self = Some cohere →
  CallChat m p t k ∈ snd (query lower env self s) →
  m = CHAT_MODEL ∧ t = TEMPERATURE ∧ k = MAX_TOKENS
  ∧ fst (query lower env self s)
    = match chat cohere m p t k with
      | inl _ => MSG_INTERNAL_ERROR
      | inr response => answer_of response
      end.
Proof.
  intros Hc. unfold query.
  destruct (negb (truthy s) || negb (truthy (strip s)));
    [by intros ?%elem_of_nil|].
  destruct (bool_decide (strip (lower s) ∈ greetings));
    [by intros ?%elem_of_nil|].
  destruct (existsb _ off_topic_keywords); [by intros ?%elem_of_nil|].
  rewrite Hc.
  destruct (embed cohere [s] EMBED_MODEL EMBED_INPUT_TYPE) as [e|er] eqn:He.
  { rewrite (rag_flow_embed_raises _ _ _ _ _ He). simpl.
    by intros [=]%list_elem_of_singleton. }
  destruct (embeddings er) as [|v rest] eqn:Hv.
  { rewrite (rag_flow_no_vector _ _ _ _ _ He Hv). simpl.
    by intros [=]%list_elem_of_singleton. }
  rewrite (rag_flow_embedded _ _ _ _ _ _ _ He Hv).
  pose proof (retrieve_never_chats env (qdrant self) v) as Hnc.
  destruct (retrieve env (qdrant self) v) as [[e|[|x xs]] log];
    simpl in Hnc; unfold after_retrieval, try_except.
  - intros [|Hin]%elem_of_cons; [done|].
    by rewrite Forall_forall in Hnc; apply Hnc in Hin.
  - intros [|Hin]%elem_of_cons; [done|].
    by rewrite Forall_forall in Hnc; apply Hnc in Hin.
  - set (prompt := build_prompt (build_context (x :: xs)) s).
    intros Hin.
    assert (Heq : CallChat m p t k = chat_call prompt).
    { destruct (chat cohere CHAT_MODEL prompt TEMPERATURE MAX_TOKENS);
        simpl in Hin;
        apply elem_of_cons in Hin as [Hin|Hin]; try done;
        apply elem_of_app in Hin as [Hin|Hin];
        try (by rewrite Forall_forall in Hnc; apply Hnc in Hin);
        by apply list_elem_of_singleton in Hin. }
    injection Heq as -> -> -> ->.
    repeat split. by destruct (chat cohere CHAT_MODEL prompt _ _).
Qed.

(** C8.  When the generation call is issued and completes without
    exception, [query] returns the trimmed text of the response, or the
    fixed no-response message when that text is missing, empty, or blank. *)
Theorem generated_answer_trimmed lower env self cohere s m p t k response :
  cohere_client self = Some cohere →
  CallChat m p t k ∈ snd (query lower env self s) →
  chat cohere m p t k = inr response →
  fst (query lower env self s) = trimmed_or_no_response response.
Proof.
  intros Hc Hin Hchat.
  destruct (logged_chat_call _ _ _ _ _ _ _ _ _ Hc Hin) as (_ & _ & _ & ->).
  by rewrite Hchat, answer_of_trimmed.
Qed.

Lemma generated_answer_trimmed_witness :
  cohere_client Sample.agent_ready = Some Sample.cohere
  ∧ CallChat CHAT_MODEL Sample.prompt TEMPERATURE MAX_TOKENS
    ∈ snd (query lower_latin1 Sample.env Sample.agent_ready Sample.question)
  ∧ chat Sample.cohere CHAT_MODEL Sample.prompt TEMPERATURE MAX_TOKENS
    = inr Sample.reply
  ∧ fst (query lower_latin1 Sample.env Sample.agent_ready Sample.question)
    = lit "Nodes talk over topics.".
Proof.
  assert (Hin : CallChat CHAT_MODEL Sample.prompt TEMPERATURE MAX_TOKENS
                ∈ snd (query lower_latin1 Sample.env Sample.agent_ready
                             Sample.question)).
  { assert (Hlog : snd (query lower_latin1 Sample.env Sample.agent_ready
                              Sample.question)
                   = [ embed_call Sample.question;
                       search_call Sample.env Sample.vector;
                       CallChat CHAT_MODEL Sample.prompt TEMPERATURE
                                MAX_TOKENS ])
      by (by vm_compute).
    rewrite Hlog. do 2 apply list_elem_of_further. apply list_elem_of_here. }
  split; [reflexivity|]. split; [exact Hin|]. split; [reflexivity|].
  exact (generated_answer_trimmed lower_latin1 Sample.env Sample.agent_ready
           Sample.cohere Sample.question CHAT_MODEL Sample.prompt TEMPERATURE
           MAX_TOKENS Sample.reply eq_refl Hin eq_refl).
Defined.

(** C10 as stated fails.  Without a vector-store client the query still
    goes through the embedding call, and that call can fail: the reply is
    then the internal-error message, not the no-relevant-content one. *)
Lemma no_vector_store_embed_failure :
  reaches_rag_flow lower_latin1 Sample.agent_no_store_embed_down
                   Sample.question Sample.cohere_embed_down
  ∧ qdrant Sample.agent_no_store_embed_down = None
  ∧ query lower_latin1 Sample.env Sample.agent_no_store_embed_down
          Sample.question
    = (MSG_INTERNAL_ERROR, [embed_call Sample.question])
  ∧ fst (query lower_latin1 Sample.env Sample.agent_no_store_embed_down
               Sample.question) ≠ MSG_NO_CONTENT
  ∧ ¬ (∀ lower env self cohere s,
          reaches_rag_flow lower self s cohere →
          qdrant self = None →
          fst (query lower env self s) = MSG_NO_CONTENT).
Proof.
  pose proof (sample_question_reaches Sample.cohere_embed_down None) as Hr.
  assert (Hne : fst (query lower_latin1 Sample.env
                       Sample.agent_no_store_embed_down Sample.question)
                ≠ MSG_NO_CONTENT) by (by vm_compute).
  split; [exact Hr|]. split; [reflexivity|]. split; [by vm_compute|].
  split; [exact Hne|].
  intros Hall. apply Hne.
  exact (Hall lower_latin1 Sample.env Sample.agent_no_store_embed_down
              Sample.cohere_embed_down Sample.question Hr eq_refl).
Qed.

(** C10, amended.  With no vector-store client and a configured generation
    client, a query that reaches the flow and whose embedding call returns
    at least one vector gets the fixed no-relevant-content message, after
    the embedding call and with neither search nor generation call; when the
    embedding call raises or returns no vector, the reply is the
    internal-error message instead. *)
Theorem no_vector_store_no_content lower env self cohere s :
  reaches_rag_flow lower self s cohere →
  qdrant self = None →
  (∀ er v rest,
      embed cohere [s] EMBED_MODEL EMBED_INPUT_TYPE = inr er →
      embeddings er = v :: rest →
      query lower env self s = (MSG_NO_CONTENT, [embed_call s]))
  ∧ (∀ e,
      embed cohere [s] EMBED_MODEL EMBED_INPUT_TYPE = inl e →
      query lower env self s = (MSG_INTERNAL_ERROR, [embed_call s]))
  ∧ (∀ er,
      embed cohere [s] EMBED_MODEL EMBED_INPUT_TYPE = inr er →
      embeddings er = [] →
      query lower env self s = (MSG_INTERNAL_ERROR, [embed_call s])).
Proof.
  intros Hr Hq. pose proof (query_enters_rag_flow lower env _ _ _ Hr) as Hf.
  split; [|split].
  - intros er v rest He Hv.
    by rewrite (query_after_embedding _ _ _ _ _ _ _ _ Hr He Hv), Hq.
  - intros e He. by rewrite Hf, (rag_flow_embed_raises _ _ _ _ _ He).
  - intros er He Hv. by rewrite Hf, (rag_flow_no_vector _ _ _ _ _ He Hv).
Qed.

Lemma no_vector_store_no_content_witness :
  reaches_rag_flow lower_latin1 Sample.agent_no_store Sample.question
                   Sample.cohere
  ∧ qdrant Sample.agent_no_store = None
  ∧ embed Sample.cohere [Sample.question] EMBED_MODEL EMBED_INPUT_TYPE
    = inr {| embeddings := [Sample.vector] |}
  ∧ query lower_latin1 Sample.env Sample.agent_no_store Sample.question
    = (MSG_NO_CONTENT, [embed_call Sample.question]).
Proof.
  pose proof (sample_question_reaches Sample.cohere None) as Hr.
  split; [exact Hr|]. split; [reflexivity|]. split; [reflexivity|].
  exact (proj1 (no_vector_store_no_content lower_latin1 Sample.env
                  Sample.agent_no_store Sample.cohere Sample.question Hr
                  eq_refl)
               {| embeddings := [Sample.vector] |} Sample.vector []
               eq_refl eq_refl).
Defined.

(** ** The per-session map of [api.py] *)

Lemma announcement_known p sid r :
  agents (agent_manager p) !! session_key sid = Some r →
  announcement p sid
  = lit "Reusing existing agent for session: " ++ session_key sid.
Proof.
  intros H. unfold announcement.
  rewrite bool_decide_eq_false_2; [done|].
  intros Hn. apply not_elem_of_dom in Hn. congruence.
Qed.

Lemma announcement_first_use p sid :
  agents (agent_manager p) !! session_key sid = None →
  announcement p sid
  = lit "Creating new agent for session: " ++ session_key sid.
Proof.
  intros H. unfold announcement.
  by rewrite bool_decide_eq_true_2; [|apply not_elem_of_dom].
Qed.

Lemma get_agent_known now p sid r :
  agents (agent_manager p) !! session_key sid = Some r →
  get_agent now p sid
  = match print_line now (lit "Reusing existing agent for session: "
                          ++ session_key sid) with
    | inl e => (inl e, p)
    | inr _ => (inr r, p)
    end.
Proof.
  intros H. unfold get_agent.
  rewrite bool_decide_eq_false_2.
  - unfold subscript. by rewrite H.
  - intros Hn. apply not_elem_of_dom in Hn. congruence.
Qed.

Lemma get_agent_first_use now p sid :
  agents (agent_manager p) !! session_key sid = None →
  get_agent now p sid
  = match print_line now (lit "Creating new agent for session: "
                          ++ session_key sid) with
    | inl e => (inl e, p)
    | inr _ =>
        (inr (length (objects p)),
         {| objects := objects p ++ [__init__ (environment now)];
            agent_manager :=
              {| agents := <[session_key sid := length (objects p)]>
                             (agents (agent_manager p)) |} |})
    end.
Proof.
  intros H. unfold get_agent.
  rewrite bool_decide_eq_true_2; [|by apply not_elem_of_dom].
  unfold subscript. simpl. by rewrite lookup_insert_eq.
Qed.

(** A [print] that raises ends the call with that exception and leaves the
    state as it was. *)
Lemma get_agent_print_raises now p sid e :
  print_line now (announcement p sid) = inl e →
  get_agent now p sid = (inl e, p).
Proof.
  destruct (agents (agent_manager p) !! session_key sid) as [r|] eqn:E.
  - rewrite (announcement_known _ _ _ E), (get_agent_known now _ _ _ E).
    by intros ->.
  - rewrite (announcement_first_use _ _ E), (get_agent_first_use now _ _ E).
    by intros ->.
Qed.

(** A call keeps every entry of the dictionary and every stored object. *)
Lemma get_agent_grows now p sid :
  agents (agent_manager p)
  ⊆ agents (agent_manager (snd (get_agent now p sid)))
  ∧ objects p `prefix_of` objects (snd (get_agent now p sid)).
Proof.
  destruct (agents (agent_manager p) !! session_key sid) as [r|] eqn:E.
  - rewrite (get_agent_known now _ _ _ E). by destruct (print_line now _).
  - rewrite (get_agent_first_use now _ _ E).
    destruct (print_line now _); [done|]. simpl. split.
    + by apply insert_subseteq.
    + by apply prefix_app_r.
Qed.

Lemma get_agents_grows calls : ∀ p,
  agents (agent_manager p) ⊆ agents (agent_manager (get_agents p calls))
  ∧ objects p `prefix_of` objects (get_agents p calls).
Proof.
  induction calls as [|[now sid] calls IH]; intros p; simpl; [done|].
  destruct (get_agent_grows now p sid) as [Ha Ho].
  destruct (IH (snd (get_agent now p sid))) as [Ha' Ho'].
  split; by etrans.
Qed.

Lemma get_agent_refs_valid now p sid :
  refs_valid p → refs_valid (snd (get_agent now p sid)).
Proof.
  intros Hv.
  destruct (agents (agent_manager p) !! session_key sid) as [r|] eqn:E.
  - rewrite (get_agent_known now _ _ _ E). by destruct (print_line now _).
  - rewrite (get_agent_first_use now _ _ E).
    destruct (print_line now _); [done|]. intros k r. simpl.
    rewrite length_app. simpl. rewrite lookup_insert.
    case_decide; [intros [= <-]; lia|].
    intros Hk. apply Hv in Hk. lia.
Qed.

(** In every reachable state the dictionary holds valid references. *)
Lemma reachable_refs_valid p : reachable p → refs_valid p.
Proof.
  induction 1 as [|now p sid _ IH]; [|by apply get_agent_refs_valid].
  intros k r. simpl. by rewrite lookup_empty.
Qed.

(** Once a key is filed, every later call with it that gets its line
    printed returns the filed reference. *)
Lemma get_agent_later p sid r :
  agents (agent_manager p) !! session_key sid = Some r →
  ∀ calls now sid',
    session_key sid' = session_key sid →
    fst (get_agent now (get_agents p calls) sid')
    = match print_line now (lit "Reusing existing agent for session: "
                            ++ session_key sid) with
      | inl e => inl e
      | inr _ => inr r
      end.
Proof.
  intros Hk calls now sid' Heq.
  destruct (get_agents_grows calls p) as [Hsub _].
  rewrite (get_agent_known now _ sid' r).
  - rewrite Heq. by destruct (print_line now _).
  - rewrite Heq. by eapply lookup_weaken.
Qed.

(** C9.  [get_agent] files a call without session id under ["default"] and
    a call with a non-empty session id under that id.  When its line is
    printed, the call returns an instance, the one the dictionary holds for
    the key afterwards.  On the first call with a key it creates that
    instance: a new object, distinct from every instance held so far,
    stored under the key.  Every later call with the same key, whatever
    calls came between, returns the same instance.  No call removes or
    replaces an entry or an object: the dictionary after a call, or after
    any run of calls, extends the dictionary before.  A [print] that raises
    ends the call with that exception and changes nothing. *)
Theorem session_agents_persist now p sid :
  reachable p →
  session_key None = lit "default"
  ∧ (∀ s, s ≠ [] → session_key (Some s) = s)
  ∧ get_agent now p None = get_agent now p (Some (lit "default"))
  ∧ (∀ e, print_line now (announcement p sid) = inl e →
          get_agent now p sid = (inl e, p))
  ∧ (∀ u, print_line now (announcement p sid) = inr u →
     ∃ r,
       fst (get_agent now p sid) = inr r
       ∧ agents (agent_manager (snd (get_agent now p sid))) !! session_key sid
         = Some r
       ∧ (sid = None →
          agents (agent_manager (snd (get_agent now p sid))) !! lit "default"
          = Some r)
       ∧ (∀ s, sid = Some s → s ≠ [] →
          agents (agent_manager (snd (get_agent now p sid))) !! s = Some r)
       ∧ (agents (agent_manager p) !! session_key sid = None →
          r = length (objects p)
          ∧ objects (snd (get_agent now p sid))
            = objects p ++ [__init__ (environment now)]
          ∧ (∀ k, agents (agent_manager p) !! k ≠ Some r))
       ∧ (∀ r0, agents (agent_manager p) !! session_key sid = Some r0 →
          r = r0 ∧ snd (get_agent now p sid) = p)
       ∧ (∀ calls now' sid',
             session_key sid' = session_key sid →
             fst (get_agent now'
                    (get_agents (snd (get_agent now p sid)) calls) sid')
             = match print_line now'
                                (lit "Reusing existing agent for session: "
                                 ++ session_key sid) with
               | inl e => inl e
               | inr _ => inr r
               end))
  ∧ (∀ calls,
        agents (agent_manager p) ⊆ agents (agent_manager (get_agents p calls))
        ∧ objects p `prefix_of` objects (get_agents p calls)).
Proof.
  intros Hreach. split; [done|].
  split; [by intros [|c s] Hs|]. split; [done|].
  split; [intros e; apply get_agent_print_raises|].
  split; [|intros calls; apply get_agents_grows].
  intros u Hu.
  assert (Hkeys : ∀ (d : gmap str ref) r,
             d !! session_key sid = Some r →
             (sid = None → d !! lit "default" = Some r)
             ∧ (∀ s, sid = Some s → s ≠ [] → d !! s = Some r)).
  { intros d r Hd. split; [by intros ->|].
    intros [|c s] -> Hs; [done|exact Hd]. }
  destruct (agents (agent_manager p) !! session_key sid) as [r|] eqn:E.
  - rewrite (announcement_known _ _ _ E) in Hu.
    exists r. rewrite (get_agent_known now _ _ _ E), Hu. simpl.
    destruct (Hkeys _ _ E) as [Hnone Hsome].
    split; [done|]. split; [done|]. split; [done|]. split; [done|].
    split; [done|]. split; [by intros r0 [= <-]|].
    by apply get_agent_later.
  - rewrite (announcement_first_use _ _ E) in Hu.
    exists (length (objects p)).
    rewrite (get_agent_first_use now _ _ E), Hu. simpl.
    assert (Hnew : <[session_key sid := length (objects p)]>
                     (agents (agent_manager p)) !! session_key sid
                   = Some (length (objects p)))
      by apply lookup_insert_eq.
    destruct (Hkeys _ _ Hnew) as [Hnone Hsome].
    split; [done|]. split; [done|]. split; [done|]. split; [done|].
    split; [|split; [done|]].
    + intros _. split; [done|]. split; [done|].
      intros k Hk. apply (reachable_refs_valid p Hreach) in Hk. lia.
    + by apply get_agent_later.
Qed.

Lemma sample_process_reachable : reachable Sample.process.
Proof.
  apply (reachable_get_agent Sample.moment _ None).
  apply (reachable_get_agent Sample.moment _ (Some (lit "alice"))).
  apply reachable_startup.
Qed.

Lemma session_agents_persist_witness :
  reachable Sample.process
  ∧ print_line Sample.moment
               (announcement Sample.process (Some (lit "bob"))) = inr tt
  ∧ ∃ r,
      fst (get_agent Sample.moment Sample.process (Some (lit "bob"))) = inr r
      ∧ agents (agent_manager
                  (snd (get_agent Sample.moment Sample.process
                          (Some (lit "bob"))))) !! lit "bob"
        = Some r
      ∧ r = length (objects Sample.process)
      ∧ (∀ k, agents (agent_manager Sample.process) !! k ≠ Some r).
Proof.
  pose proof sample_process_reachable as Hreach.
  split; [exact Hreach|]. split; [reflexivity|].
  destruct (session_agents_persist Sample.moment Sample.process
              (Some (lit "bob")) Hreach)
    as (_ & _ & _ & _ & Hcall & _).
  destruct (Hcall tt eq_refl) as (r & Hr & _ & _ & Hkey & Hfirst & _).
  exists r. split; [exact Hr|]. split.
  - apply (Hkey (lit "bob")); [reflexivity|by vm_compute].
  - assert (Hnone : agents (agent_manager Sample.process)
                    !! session_key (Some (lit "bob")) = None)
      by (by vm_compute).
    destruct (Hfirst Hnone) as (Hlen & _ & Hfresh). by split.
Defined.

(** The two sessions of the sample process hold distinct instances, a third
    session gets a third one, and an empty session id is the default
    session. *)
Example sample_process_refs :
  fst (get_agent Sample.moment Sample.process (Some (lit "alice")))
  = inr 0%nat
  ∧ fst (get_agent Sample.moment Sample.process None) = inr 1%nat
  ∧ fst (get_agent Sample.moment Sample.process (Some [])) = inr 1%nat
  ∧ fst (get_agent Sample.moment Sample.process (Some (lit "bob")))
    = inr 2%nat.
Proof. by vm_compute. Qed.

(** A missing generation key leaves the agent without generation client. *)
Lemma init_without_key env :
  env_set (COHERE_API_KEY env) = false →
  cohere_client (__init__ env) = None.
Proof.
  unfold __init__, _initialize_clients, env_set. simpl.
  destruct (COHERE_API_KEY env) as [key|]; [|done]. by intros ->.
Qed.

(** * Further properties of the code *)

(** ** Trimming *)

Lemma lstrip_suffix s : ∃ w, s = w ++ lstrip s ∧ blank w.
Proof.
  induction s as [|c s (w & Hs & Hw)]; simpl.
  - exists []. split; [done|constructor].
  - destruct (isspace c) eqn:Hc.
    + exists (c :: w). split; [simpl; by f_equal|by constructor].
    + exists []. split; [done|constructor].
Qed.

Lemma lstrip_fixed s :
  (∀ c t, s = c :: t → isspace c = false) → lstrip s = s.
Proof.
  destruct s as [|c t]; [done|]. intros H. simpl. by rewrite (H c t).
Qed.

Lemma lstrip_idempotent s : lstrip (lstrip s) = lstrip s.
Proof. apply lstrip_fixed. intros c t. apply lstrip_head. Qed.

Lemma rstrip_idempotent s : rstrip (rstrip s) = rstrip s.
Proof.
  unfold rstrip. by rewrite reverse_involutive, lstrip_idempotent.
Qed.

Lemma rstrip_prefix s : ∃ w, s = rstrip s ++ w.
Proof.
  unfold rstrip. destruct (lstrip_suffix (reverse s)) as (w & Hs & _).
  exists (reverse w). rewrite <- reverse_app, <- Hs.
  by rewrite reverse_involutive.
Qed.

(** Trimming the right end keeps a non-blank first character. *)
Lemma rstrip_keeps_head s c t :
  (∀ c' t', s = c' :: t' → isspace c' = false) →
  rstrip s = c :: t → isspace c = false.
Proof.
  intros Hs Hr. destruct (rstrip_prefix s) as [w Hw].
  rewrite Hr in Hw. simpl in Hw. by apply (Hs c (t ++ w)).
Qed.

(** [strip] returns a string that [strip] leaves alone. *)
Lemma strip_idempotent s : strip (strip s) = strip s.
Proof.
  unfold strip at 1.
  rewrite (lstrip_fixed (strip s)).
  - unfold strip. apply rstrip_idempotent.
  - intros c t. unfold strip. apply rstrip_keeps_head.
    intros c' t'. apply lstrip_head.
Qed.

Lemma fixed_messages_trimmed m :
  m ∈ fixed_messages → strip m = m ∧ m ≠ [].
Proof.
  unfold fixed_messages. intros Hm.
  repeat (apply elem_of_cons in Hm as [->|Hm]; [by vm_compute|]).
  by apply elem_of_nil in Hm.
Qed.

(** ** What [query] can return and what it can call *)

Section Replies.

Variable lower : str → str.
Variable env : Environment.

(** A value of the guarded block is the no-content literal or the answer
    made from the response that the generation call returned; that call is
    then in the log. *)
Lemma rag_flow_value cohere q s a log :
  rag_flow env cohere q s = (inr a, log) →
  a = MSG_NO_CONTENT
  ∨ ∃ prompt response,
      chat cohere CHAT_MODEL prompt TEMPERATURE MAX_TOKENS = inr response
      ∧ chat_call prompt ∈ log
      ∧ a = trimmed_or_no_response response.
Proof.
  destruct (embed cohere [s] EMBED_MODEL EMBED_INPUT_TYPE) as [e|er] eqn:He.
  { by rewrite (rag_flow_embed_raises _ _ _ _ _ He). }
  destruct (embeddings er) as [|v rest] eqn:Hv.
  { by rewrite (rag_flow_no_vector _ _ _ _ _ He Hv). }
  rewrite (rag_flow_embedded _ _ _ _ _ _ _ He Hv). unfold after_retrieval.
  destruct (retrieve env q v) as [[e|[|p ps]] rlog]; [done| |].
  - intros [= <- _]. by left.
  - set (prompt := build_prompt (build_context (p :: ps)) s).
    destruct (chat cohere CHAT_MODEL prompt TEMPERATURE MAX_TOKENS)
      as [e|response] eqn:Hc; [done|].
    intros [= <- <-]. right. exists prompt, response.
    split; [exact Hc|]. split; [|apply answer_of_trimmed].
    apply list_elem_of_further, elem_of_app. right.
    apply list_elem_of_here.
Qed.

Lemma trimmed_or_no_response_cases response :
  trimmed_or_no_response response = MSG_NO_RESPONSE
  ∨ ∃ t, text response = Some t ∧ strip t ≠ []
         ∧ trimmed_or_no_response response = strip t.
Proof.
  unfold trimmed_or_no_response.
  destruct (text response) as [t|]; [|by left].
  destruct (strip t) as [|c r] eqn:E; [by left|].
  right. exists t. by rewrite E.
Qed.

(** The log of the guarded block: the embedding call, then possibly the
    search call, then possibly the generation call. *)
Lemma rag_flow_log cohere q s :
  let log := snd (rag_flow env cohere q s) in
  log = [embed_call s]
  ∨ (∃ v, log = [embed_call s; search_call env v])
  ∨ (∃ v prompt, log = [embed_call s; search_call env v; chat_call prompt]).
Proof.
  simpl.
  destruct (embed cohere [s] EMBED_MODEL EMBED_INPUT_TYPE) as [e|er] eqn:He.
  { rewrite (rag_flow_embed_raises _ _ _ _ _ He). by left. }
  destruct (embeddings er) as [|v rest] eqn:Hv.
  { rewrite (rag_flow_no_vector _ _ _ _ _ He Hv). by left. }
  rewrite (rag_flow_embedded _ _ _ _ _ _ _ He Hv). unfold after_retrieval.
  destruct q as [q|].
  - destruct (search q (QDRANT_COLLECTION env) v SEARCH_LIMIT true)
      as [e|hits] eqn:Hs.
    + rewrite (retrieve_search_raises _ _ _ _ Hs). right. left. by exists v.
    + rewrite (retrieve_search_returns _ _ _ _ Hs).
      destruct (for_hits hits []) as [e|[|p ps]]; simpl.
      * right. left. by exists v.
      * right. left. by exists v.
      * right. right. by eexists v, _.
  - rewrite retrieve_unconfigured. by left.
Qed.

End Replies.

(** X1.  Whatever the input, the agent and the services do, the reply of
    [query] is one of the seven fixed messages, or it is the trimmed text of
    the response that the agent's generation client returned for a
    generation call found in the log.  In both cases it is non-empty and
    carries no leading or trailing whitespace. *)
Theorem query_reply_shape lower env self s :
  (fst (query lower env self s) ∈ fixed_messages
   ∨ ∃ cohere prompt response t,
       cohere_client self = Some cohere
       ∧ chat_call prompt ∈ snd (query lower env self s)
       ∧ chat cohere CHAT_MODEL prompt TEMPERATURE MAX_TOKENS = inr response
       ∧ text response = Some t
       ∧ fst (query lower env self s) = strip t)
  ∧ fst (query lower env self s) ≠ []
  ∧ strip (fst (query lower env self s)) = fst (query lower env self s).
Proof.
  assert (Hshape : fst (query lower env self s) ∈ fixed_messages
                   ∨ ∃ cohere prompt response t,
                       cohere_client self = Some cohere
                       ∧ chat_call prompt ∈ snd (query lower env self s)
                       ∧ chat cohere CHAT_MODEL prompt TEMPERATURE MAX_TOKENS
                         = inr response
                       ∧ text response = Some t
                       ∧ strip t ≠ []
                       ∧ fst (query lower env self s) = strip t).
  { unfold query.
    destruct (negb (truthy s) || negb (truthy (strip s)));
      [left; set_solver|].
    destruct (bool_decide (strip (lower s) ∈ greetings));
      [left; set_solver|].
    destruct (existsb _ off_topic_keywords); [left; set_solver|].
    destruct (cohere_client self) as [cohere|]; [|left; set_solver].
    unfold try_except.
    destruct (rag_flow env cohere (qdrant self) s) as [[e|a] log] eqn:E;
      [left; set_solver|].
    apply rag_flow_value in E as [->|(prompt & response & Hc & Hin & ->)];
      [left; set_solver|].
    destruct (trimmed_or_no_response_cases response)
      as [->|(t & Ht & Hn & ->)].
    - left. set_solver.
    - right. by exists cohere, prompt, response, t. }
  destruct Hshape as [Hm|(cohere & prompt & response & t & H1 & H2 & H3 & H4
                           & Hn & Hq)].
  - split; [by left|]. destruct (fixed_messages_trimmed _ Hm). by split.
  - split; [right; by exists cohere, prompt, response, t|].
    rewrite Hq. split; [done|apply strip_idempotent].
Qed.

(** X2.  [query] issues at most three service calls, in a fixed order and
    none twice: nothing, or the embedding call alone, or the embedding call
    followed by the search call, or those two followed by the generation
    call.  It issues a call exactly when the input passes the four early
    returns of a configured agent. *)
Theorem query_log_shape lower env self s :
  (snd (query lower env self s) = []
   ∨ snd (query lower env self s) = [embed_call s]
   ∨ (∃ v, snd (query lower env self s) = [embed_call s; search_call env v])
   ∨ (∃ v prompt,
        snd (query lower env self s)
        = [embed_call s; search_call env v; chat_call prompt]))
  ∧ (snd (query lower env self s) ≠ []
     ↔ ∃ cohere, reaches_rag_flow lower self s cohere).
Proof.
  split.
  - unfold query.
    destruct (negb (truthy s) || negb (truthy (strip s))); [by left|].
    destruct (bool_decide (strip (lower s) ∈ greetings)); [by left|].
    destruct (existsb _ off_topic_keywords); [by left|].
    destruct (cohere_client self) as [cohere|]; [|by left].
    right. pose proof (rag_flow_log env cohere (qdrant self) s) as H.
    simpl in H. unfold try_except.
    by destruct (rag_flow env cohere (qdrant self) s) as [[e|a] log].
  - split.
    + unfold query, reaches_rag_flow.
      destruct (negb (truthy s) || negb (truthy (strip s))) eqn:E1; [done|].
      destruct (bool_decide (strip (lower s) ∈ greetings)) eqn:E2; [done|].
      destruct (existsb _ off_topic_keywords) eqn:E3; [done|].
      destruct (cohere_client self) as [cohere|]; [|done].
      intros _. exists cohere.
      apply orb_false_iff in E1 as [_ E1].
      apply negb_false_iff, truthy_true in E1.
      apply bool_decide_eq_false in E2.
      split; [done|]. split; [done|]. split; [|done].
      intros Hk. apply off_topic_test in Hk. congruence.
    + intros [cohere Hr].
      rewrite (query_enters_rag_flow _ env _ _ _ Hr).
      pose proof (rag_flow_log env cohere (qdrant self) s) as H.
      simpl in H. unfold try_except.
      destruct (rag_flow env cohere (qdrant self) s) as [[e|a] log];
        simpl in *; by destruct H as [->|[[v ->]|[v [pr ->]]]].
Qed.

(** ** Start-up failures and the replies they lead to *)

Lemma init_cohere_failed env key e :
  COHERE_API_KEY env = Some key → new_cohere env key = inl e →
  cohere_client (__init__ env) = None.
Proof.
  intros Hk He. unfold __init__, _initialize_clients. simpl.
  rewrite Hk. destruct (truthy key); [by rewrite He|done].
Qed.

Lemma init_qdrant env :
  qdrant (__init__ env)
  = match connect_qdrant env with
    | inr q => match get_collections q with
               | inr _ => Some q
               | inl _ => None
               end
    | inl _ => None
    end.
Proof. done. Qed.

(** X3.  When the generation key is unset or empty, or the constructor of
    the generation client raises, the agent is still built, and it answers
    every input that is not blank, no greeting and free of blocked keywords
    with the service-unavailable message, without any service call. *)
Theorem startup_without_generation_client lower env s :
  env_set (COHERE_API_KEY env) = false
  ∨ (∃ key e, COHERE_API_KEY env = Some key ∧ new_cohere env key = inl e) →
  strip s ≠ [] → ¬ is_greeting lower s → ¬ has_blocked_keyword lower s →
  query lower env (__init__ env) s = (MSG_NOT_CONFIGURED, []).
Proof.
  intros Hdown Hs Hg Hk.
  assert (Hc : cohere_client (__init__ env) = None).
  { destruct Hdown as [Hunset|(key & e & Hkey & He)].
    - by apply init_without_key.
    - by eapply init_cohere_failed. }
  unfold query.
  rewrite (empty_test_false _ Hs), (greeting_test_false _ _ Hg).
  by rewrite (off_topic_test_false _ _ Hk), Hc.
Qed.

Lemma startup_without_generation_client_witness :
  (env_set (COHERE_API_KEY Fixture.env_no_key) = false
   ∨ (∃ key e, COHERE_API_KEY Fixture.env_no_key = Some key
               ∧ new_cohere Fixture.env_no_key key = inl e))
  ∧ strip Sample.question ≠ []
  ∧ ¬ is_greeting lower_latin1 Sample.question
  ∧ ¬ has_blocked_keyword lower_latin1 Sample.question
  ∧ query lower_latin1 Fixture.env_no_key (__init__ Fixture.env_no_key)
          Sample.question
    = (MSG_NOT_CONFIGURED, []).
Proof.
  destruct (sample_question_reaches Sample.cohere None) as (Hs & Hg & Hk & _).
  split; [by left|]. split; [exact Hs|]. split; [exact Hg|].
  split; [exact Hk|].
  exact (startup_without_generation_client lower_latin1 Fixture.env_no_key
           Sample.question (or_introl eq_refl) Hs Hg Hk).
Defined.

(** X4.  When the vector-store constructor or its connection probe raises
    at start-up, the agent is built without vector store; a query that
    reaches the flow and gets an embedding then returns the
    no-relevant-content message after the embedding call alone. *)
Theorem startup_without_vector_store lower env cohere s er v rest :
  (∃ e, connect_qdrant env = inl e)
  ∨ (∃ q e, connect_qdrant env = inr q ∧ get_collections q = inl e) →
  reaches_rag_flow lower (__init__ env) s cohere →
  embed cohere [s] EMBED_MODEL EMBED_INPUT_TYPE = inr er →
  embeddings er = v :: rest →
  qdrant (__init__ env) = None
  ∧ query lower env (__init__ env) s = (MSG_NO_CONTENT, [embed_call s]).
Proof.
  intros Hdown Hr He Hv.
  assert (Hq : qdrant (__init__ env) = None).
  { rewrite init_qdrant.
    destruct Hdown as [[e ->]|(q & e & -> & ->)]; done. }
  split; [exact Hq|].
  by rewrite (query_after_embedding _ _ _ _ _ _ _ _ Hr He Hv), Hq.
Qed.

Lemma startup_without_vector_store_witness :
  ((∃ e, connect_qdrant Fixture.env_store_down = inl e)
   ∨ (∃ q e, connect_qdrant Fixture.env_store_down = inr q
             ∧ get_collections q = inl e))
  ∧ reaches_rag_flow lower_latin1 (__init__ Fixture.env_store_down)
                     Sample.question Sample.cohere
  ∧ query lower_latin1 Fixture.env_store_down
          (__init__ Fixture.env_store_down) Sample.question
    = (MSG_NO_CONTENT, [embed_call Sample.question]).
Proof.
  assert (Hdown : (∃ e, connect_qdrant Fixture.env_store_down = inl e)
                  ∨ (∃ q e, connect_qdrant Fixture.env_store_down = inr q
                            ∧ get_collections q = inl e)).
  { left. by eexists. }
  pose proof (sample_question_reaches Sample.cohere None) as Hr.
  split; [exact Hdown|]. split; [exact Hr|].
  exact (proj2 (startup_without_vector_store lower_latin1
                  Fixture.env_store_down Sample.cohere Sample.question
                  {| embeddings := [Sample.vector] |} Sample.vector []
                  Hdown Hr eq_refl eq_refl)).
Defined.

(** ** More on the score and content filter *)

Lemma malformed_not_text h : malformed h → ¬ content_is_text h.
Proof. intros [Hq Hn] Ht. destruct (Ht Hq) as [s Hs]. by apply (Hn s). Qed.

Lemma for_hits_only_attribute_error hits : ∀ acc e,
  for_hits hits acc = inl e → e = AttributeError.
Proof.
  induction hits as [|h hits IH]; intros acc e; simpl; [done|].
  destruct (visit_hit acc h) as [e'|acc'] eqn:E; [|by apply IH].
  intros [= <-]. revert E. unfold visit_hit.
  destruct (PrimFloat.leb _ _); [|done].
  destruct (payload_content (hit_payload h)); simpl; try (by intros [= <-]).
  by destruct (truthy (strip s)).
Qed.

Lemma for_hits_malformed hits :
  Exists malformed hits → for_hits hits [] = inl AttributeError.
Proof.
  intros Hex. destruct (for_hits hits []) as [e|r] eqn:E.
  - by rewrite (for_hits_only_attribute_error _ _ _ E).
  - apply for_hits_completes in E as [Hall _]. exfalso.
    apply Exists_exists in Hex as (h & Hin & Hm).
    rewrite Forall_forall in Hall. by apply (malformed_not_text h Hm), Hall.
Qed.

Lemma for_hits_all_below hits :
  Forall (λ h, score_qualifies h = false) hits → for_hits hits [] = inr [].
Proof.
  intros Hall. apply for_hits_completes. split.
  - eapply Forall_impl; [exact Hall|]. intros h Hh Hq. congruence.
  - unfold retained_passages. simpl.
    induction Hall as [|h hits Hh _ IH]; [done|].
    simpl. unfold kept at 1. by rewrite Hh.
Qed.

(** X5.  One returned neighbour with a qualifying score and a content value
    that is no string makes the whole query fail with the internal-error
    message, whatever the other neighbours hold, and before any generation
    call.  Below the threshold the payload is never looked at: when every
    score is below it, the reply is the no-relevant-content message even if
    payloads are malformed. *)
Theorem malformed_payload_fails_query lower env self cohere q s er v rest hits :
  reaches_rag_flow lower self s cohere →
  embed cohere [s] EMBED_MODEL EMBED_INPUT_TYPE = inr er →
  embeddings er = v :: rest →
  qdrant self = Some q →
  search q (QDRANT_COLLECTION env) v SEARCH_LIMIT true = inr hits →
  (Exists malformed hits →
   query lower env self s
   = (MSG_INTERNAL_ERROR, [embed_call s; search_call env v]))
  ∧ (Forall (λ h, score_qualifies h = false) hits →
     query lower env self s
     = (MSG_NO_CONTENT, [embed_call s; search_call env v])).
Proof.
  intros Hr He Hv Hq Hs.
  rewrite (query_after_search _ _ _ _ _ _ _ _ _ _ Hr He Hv Hq Hs).
  split.
  - intros Hex. by rewrite (for_hits_malformed _ Hex).
  - intros Hall. by rewrite (for_hits_all_below _ Hall).
Qed.

Lemma malformed_payload_fails_query_witness :
  reaches_rag_flow lower_latin1 Fixture.agent_bad_payload Sample.question
                   Sample.cohere
  ∧ Exists malformed (Sample.hits ++ [Fixture.bad_hit])
  ∧ query lower_latin1 Sample.env Fixture.agent_bad_payload Sample.question
    = (MSG_INTERNAL_ERROR,
       [embed_call Sample.question; search_call Sample.env Sample.vector])
  ∧ Forall (λ h, score_qualifies h = false) [Fixture.bad_weak_hit]
  ∧ query lower_latin1 Sample.env Fixture.agent_bad_weak_payload
          Sample.question
    = (MSG_NO_CONTENT,
       [embed_call Sample.question; search_call Sample.env Sample.vector]).
Proof.
  pose proof (sample_question_reaches Sample.cohere
                (qdrant Fixture.agent_bad_payload)) as Hr.
  pose proof (sample_question_reaches Sample.cohere
                (qdrant Fixture.agent_bad_weak_payload)) as Hr'.
  assert (Hex : Exists malformed (Sample.hits ++ [Fixture.bad_hit])).
  { apply Exists_app. right. constructor. split; [by vm_compute|].
    intros s. by vm_compute. }
  assert (Hall : Forall (λ h, score_qualifies h = false)
                        [Fixture.bad_weak_hit]).
  { constructor; [by vm_compute|constructor]. }
  split; [exact Hr|]. split; [exact Hex|]. split; [|split; [exact Hall|]].
  - exact (proj1 (malformed_payload_fails_query lower_latin1 Sample.env
                    Fixture.agent_bad_payload Sample.cohere
                    (Sample.qdrant_with
                       (returns (Sample.hits ++ [Fixture.bad_hit])))
                    Sample.question {| embeddings := [Sample.vector] |}
                    Sample.vector [] _ Hr eq_refl eq_refl eq_refl eq_refl)
                 Hex).
  - exact (proj2 (malformed_payload_fails_query lower_latin1 Sample.env
                    Fixture.agent_bad_weak_payload Sample.cohere
                    (Sample.qdrant_with (returns [Fixture.bad_weak_hit]))
                    Sample.question {| embeddings := [Sample.vector] |}
                    Sample.vector [] _ Hr' eq_refl eq_refl eq_refl eq_refl)
                 Hall).
Defined.

Lemma kept_facts h :
  kept h = true →
  PrimFloat.leb SCORE_THRESHOLD (score (passage_of h)) = true
  ∧ content (passage_of h) ≠ []
  ∧ hit_score h = Some (score (passage_of h))
  ∧ content (passage_of h) `prefix_of` hit_text h
  ∧ strip (hit_text h) ≠ [].
Proof.
  unfold kept, score_qualifies, passage_of. simpl.
  intros [Hq Ht]%andb_true_iff. apply truthy_true in Ht.
  destruct (hit_score h) as [x|]; [|done]. simpl.
  split; [done|]. split; [|split; [done|split; [apply prefix_take|done]]].
  destruct (hit_text h) as [|c t]; [|done]. by destruct Ht.
Qed.

(** X7.  Every passage the loop retains carries a score that passes the
    threshold test, and a content that is non-empty and is a prefix of the
    text stored with a returned neighbour of that score, a text that is not
    blank. *)
Theorem retained_passage_origin hits retrieved :
  for_hits hits [] = inr retrieved →
  Forall (λ p,
            PrimFloat.leb SCORE_THRESHOLD (score p) = true
            ∧ content p ≠ []
            ∧ ∃ h, h ∈ hits ∧ hit_score h = Some (score p)
                   ∧ content p `prefix_of` hit_text h
                   ∧ strip (hit_text h) ≠ [])
         retrieved.
Proof.
  intros Hr. apply for_hits_completes in Hr as [_ ->]. simpl.
  unfold retained_passages. apply Forall_fmap, Forall_forall.
  intros h Hin. apply list_elem_of_In, List.filter_In in Hin as [Hin Hk].
  destruct (kept_facts h Hk) as (H1 & H2 & H3 & H4 & H5). simpl.
  split; [done|]. split; [done|]. exists h.
  split; [by apply list_elem_of_In|done].
Qed.

Lemma retained_passage_origin_witness :
  for_hits Sample.hits [] = inr (retained_passages Sample.hits)
  ∧ Forall (λ p,
              PrimFloat.leb SCORE_THRESHOLD (score p) = true
              ∧ content p ≠ []
              ∧ ∃ h, h ∈ Sample.hits ∧ hit_score h = Some (score p)
                     ∧ content p `prefix_of` hit_text h
                     ∧ strip (hit_text h) ≠ [])
           (retained_passages Sample.hits).
Proof.
  assert (Hr : for_hits Sample.hits [] = inr (retained_passages Sample.hits))
    by (by vm_compute).
  split; [exact Hr|].
  exact (retained_passage_origin Sample.hits _ Hr).
Defined.

(** X8.  The content test is made on the whole text, but what is stored is
    the untrimmed first 800 characters: a text that opens with at least 800
    whitespace characters and has other characters later is retained as a
    passage made of whitespace only. *)
Theorem leading_whitespace_retained h x pad t :
  hit_score h = Some x →
  PrimFloat.leb SCORE_THRESHOLD x = true →
  payload_content (hit_payload h) = VStr (pad ++ t) →
  blank pad → (800 ≤ length pad)%nat → strip (pad ++ t) ≠ [] →
  for_hits [h] [] = inr [{| content := take 800 pad; score := x |}]
  ∧ blank (take 800 pad)
  ∧ strip (take 800 pad) = [].
Proof.
  intros Hx Hq Hp Hb Hl Hs.
  assert (Hb' : blank (take 800 pad)) by (by apply Forall_take).
  split; [|split; [exact Hb'|by apply strip_nil]].
  assert (Hk : kept h = true).
  { unfold kept, score_qualifies, hit_text. rewrite Hx, Hq, Hp.
    by apply truthy_true. }
  rewrite (for_hits_text [h] []).
  - unfold retained_passages. simpl. rewrite Hk. simpl.
    unfold passage_of, hit_text. rewrite Hx, Hp. simpl.
    by rewrite take_app_le.
  - constructor; [|constructor]. intros _. eauto.
Qed.

Lemma leading_whitespace_retained_witness :
  hit_score Fixture.padded_hit = Some 0x1p-1%float
  ∧ blank Fixture.padding
  ∧ (800 ≤ length Fixture.padding)%nat
  ∧ strip (Fixture.padding ++ lit "late text") ≠ []
  ∧ for_hits [Fixture.padded_hit] []
    = inr [{| content := take 800 Fixture.padding; score := 0x1p-1%float |}]
  ∧ strip (take 800 Fixture.padding) = [].
Proof.
  assert (Hb : blank Fixture.padding).
  { apply Forall_forall. intros c Hc.
    by apply elem_of_replicate in Hc as [-> _]. }
  assert (Hl : (800 ≤ length Fixture.padding)%nat).
  { unfold Fixture.padding. rewrite length_replicate. lia. }
  assert (Hs : strip (Fixture.padding ++ lit "late text") ≠ [])
    by (by vm_compute).
  destruct (leading_whitespace_retained Fixture.padded_hit 0x1p-1%float
              Fixture.padding (lit "late text") eq_refl eq_refl eq_refl
              Hb Hl Hs) as (Hloop & _ & Hblank).
  split; [reflexivity|]. split; [exact Hb|]. split; [exact Hl|].
  split; [exact Hs|]. split; [exact Hloop|exact Hblank].
Defined.

(** ** The prompt *)

Lemma substring_refl s : substring s s.
Proof. exists [], []. by rewrite app_nil_r. Qed.

Lemma substring_trans a b c : substring a b → substring b c → substring a c.
Proof.
  intros (l1 & r1 & ->) (l2 & r2 & ->).
  exists (l2 ++ l1), (r1 ++ r2). by rewrite <- !app_assoc.
Qed.

Lemma substring_middle l k r : substring k (l ++ k ++ r).
Proof. by exists l, r. Qed.

Lemma join_lookup sep (items : list str) : ∀ i x,
  items !! i = Some x → substring x (join sep items).
Proof.
  induction items as [|y items IH]; intros i x; [done|].
  destruct i as [|i]; simpl.
  - intros [= ->]. destruct items; [apply substring_refl|].
    exists [], (sep ++ join sep (s :: items)). done.
  - intros Hx. destruct items as [|z items]; [done|].
    eapply substring_trans; [by eapply IH|].
    exists (y ++ sep), []. by rewrite app_nil_r, <- app_assoc.
Qed.

Lemma substring_head k r : substring k (k ++ r).
Proof. by exists [], r. Qed.

Lemma substring_app_r k a b : substring k b → substring k (a ++ b).
Proof.
  intros (l & r & ->). exists (a ++ l), r. by rewrite <- app_assoc.
Qed.

Lemma context_in_prompt context s :
  substring context (build_prompt context s)
  ∧ substring s (build_prompt context s).
Proof.
  unfold build_prompt. split.
  - do 6 apply substring_app_r. apply substring_head.
  - do 11 apply substring_app_r. apply substring_head.
Qed.

(** X9.  The prompt sent to the generation model contains every retained
    passage in full, under its label [[Excerpt i+1]:] numbered from one,
    and the user's input exactly as it was typed. *)
Theorem prompt_embeds_excerpts retrieved s i p :
  retrieved !! i = Some p →
  substring (lit "[Excerpt " ++ of_nat (i + 1) ++ lit "]:" ++ nl ++ content p)
            (build_prompt (build_context retrieved) s)
  ∧ substring s (build_prompt (build_context retrieved) s).
Proof.
  intros Hp. destruct (context_in_prompt (build_context retrieved) s)
    as [Hc Hs].
  split; [|exact Hs]. eapply substring_trans; [|exact Hc].
  unfold build_context. apply (join_lookup _ _ i).
  rewrite list_lookup_imap, Hp. done.
Qed.

Lemma prompt_embeds_excerpts_witness :
  retained_passages Sample.hits !! 1%nat
  = Some {| content := lit "A humanoid needs balance control.";
            score := 0x1.999999999999ap-2%float |}
  ∧ substring (lit "[Excerpt " ++ of_nat (1 + 1) ++ lit "]:" ++ nl
               ++ lit "A humanoid needs balance control.")
              Sample.prompt
  ∧ substring Sample.question Sample.prompt.
Proof.
  assert (Hp : retained_passages Sample.hits !! 1%nat
               = Some {| content := lit "A humanoid needs balance control.";
                         score := 0x1.999999999999ap-2%float |})
    by (by vm_compute).
  split; [exact Hp|].
  exact (prompt_embeds_excerpts (retained_passages Sample.hits)
           Sample.question 1 _ Hp).
Defined.

(** ** The store of agents and the request handler *)

(** When its line is printed, [get_agent] returns a reference that names a
    stored agent: the one just built on first use, the one already filed
    otherwise. *)
Lemma get_agent_resolves now p sid u :
  reachable p →
  print_line now (announcement p sid) = inr u →
  ∃ r agent,
    fst (get_agent now p sid) = inr r
    ∧ objects (snd (get_agent now p sid)) !! r = Some agent
    ∧ (agents (agent_manager p) !! session_key sid = None →
       agent = __init__ (environment now))
    ∧ (∀ r0, agents (agent_manager p) !! session_key sid = Some r0 →
       r = r0 ∧ objects p !! r0 = Some agent).
Proof.
  intros Hreach Hu.
  destruct (agents (agent_manager p) !! session_key sid) as [r|] eqn:E.
  - rewrite (announcement_known _ _ _ E) in Hu.
    pose proof (reachable_refs_valid p Hreach _ _ E) as Hlt.
    apply lookup_lt_is_Some in Hlt as [agent Ha].
    exists r, agent. rewrite (get_agent_known now _ _ _ E), Hu. simpl.
    split; [done|]. split; [exact Ha|]. split; [done|].
    intros r0 [= <-]. by split.
  - rewrite (announcement_first_use _ _ E) in Hu.
    exists (length (objects p)), (__init__ (environment now)).
    rewrite (get_agent_first_use now _ _ E), Hu. simpl.
    split; [done|]. split; [by rewrite list_lookup_middle|]. by split.
Qed.

(** X10.  In every state reached from start-up the dictionary and the store
    match one to one: there are as many agents as session keys, two keys
    never share an agent, and every stored agent is filed under a key. *)
Theorem session_store_invariants p :
  reachable p →
  size (agents (agent_manager p)) = length (objects p)
  ∧ (∀ k1 k2 r,
        agents (agent_manager p) !! k1 = Some r →
        agents (agent_manager p) !! k2 = Some r → k1 = k2)
  ∧ (∀ r, (r < length (objects p))%nat →
          ∃ k, agents (agent_manager p) !! k = Some r).
Proof.
  intros Hreach. split; [|split].
  - induction Hreach as [|now p sid Hreach IH]; [done|].
    destruct (agents (agent_manager p) !! session_key sid) as [r|] eqn:E.
    + rewrite (get_agent_known now _ _ _ E). by destruct (print_line now _).
    + rewrite (get_agent_first_use now _ _ E).
      destruct (print_line now _); [done|]. simpl.
      rewrite map_size_insert_None, length_app by done. simpl. lia.
  - induction Hreach as [|now p sid Hreach IH]; [by intros k1 k2 r; simpl|].
    pose proof (reachable_refs_valid p Hreach) as Hv.
    destruct (agents (agent_manager p) !! session_key sid) as [r|] eqn:E.
    + rewrite (get_agent_known now _ _ _ E). by destruct (print_line now _).
    + rewrite (get_agent_first_use now _ _ E).
      destruct (print_line now _); [done|]. simpl. intros k1 k2 r.
      rewrite !lookup_insert. repeat case_decide; subst; try done.
      * intros [= <-] Hk. apply Hv in Hk. lia.
      * intros Hk [= <-]. apply Hv in Hk. lia.
      * apply IH.
  - induction Hreach as [|now p sid Hreach IH]; [simpl; lia|].
    destruct (agents (agent_manager p) !! session_key sid) as [r|] eqn:E.
    + rewrite (get_agent_known now _ _ _ E). by destruct (print_line now _).
    + rewrite (get_agent_first_use now _ _ E).
      destruct (print_line now _); [done|]. simpl. intros r.
      rewrite length_app. simpl. intros Hr.
      destruct (decide (r = length (objects p))) as [->|Hne].
      * exists (session_key sid). by rewrite lookup_insert_eq.
      * destruct (IH r) as [k Hk]; [lia|]. exists k.
        rewrite lookup_insert_ne; [done|]. intros <-.
        by pose proof (eq_trans (eq_sym E) Hk).
Qed.

Lemma session_store_invariants_witness :
  reachable Sample.process
  ∧ size (agents (agent_manager Sample.process))
    = length (objects Sample.process)
  ∧ length (objects Sample.process) = 2%nat.
Proof.
  pose proof sample_process_reachable as Hreach.
  split; [exact Hreach|].
  split; [exact (proj1 (session_store_invariants Sample.process Hreach))
         |reflexivity].
Defined.

Section Handler.

Variable lower : str → str.
Variable utcnow : str.

Lemma query_endpoint_blank now p request :
  blank (QueryRequest.query request) →
  query_endpoint lower utcnow now p request = (Refused BAD_REQUEST, p, []).
Proof.
  intros Hb. unfold query_endpoint. apply strip_nil in Hb. by rewrite Hb.
Qed.

Lemma query_endpoint_not_blank now p request :
  strip (QueryRequest.query request) ≠ [] →
  query_endpoint lower utcnow now p request
  = let '(found, p') := get_agent now p (QueryRequest.session_id request) in
    match found with
    | inr r =>
        match objects p' !! r with
        | Some agent =>
            (Responded
               {| QueryResponse.response :=
                    fst (query lower (environment now) agent
                               (QueryRequest.query request));
                  QueryResponse.sources := [];
                  QueryResponse.session_id := QueryRequest.session_id request;
                  QueryResponse.timestamp := utcnow;
                  QueryResponse.status := lit "success" |}, p',
             snd (query lower (environment now) agent
                        (QueryRequest.query request)))
        | None => (on_exception now, p', [])
        end
    | inl _ => (on_exception now, p', [])
    end.
Proof.
  intros Hs. unfold query_endpoint.
  rewrite (proj2 (negb_false_iff _) (proj2 (truthy_true _) Hs)).
  destruct (get_agent now p (QueryRequest.session_id request))
    as [[e|r] p']; [done|].
  destruct (objects p' !! r) as [agent|]; [|done].
  by destruct (query lower (environment now) agent
                     (QueryRequest.query request)).
Qed.

End Handler.

(** X11.  The request handler, from any state reached from start-up.  A
    blank query is refused with status 400 before any agent is resolved: the
    state is unchanged and nothing is called.  For any other query, when the
    line [get_agent] prints is taken, the answer is an envelope whose status
    is ["success"], whose source list is empty, whose session id is the
    request's and whose text and calls are those of [query] on the agent
    [get_agent] resolved; the state is the one [get_agent] leaves.  When
    that print raises, no agent is created and no service is called, and
    the exception clause runs: it raises the 500 error if its own prints
    succeed.  The 500 error arises in no other way. *)
Theorem query_endpoint_outcomes lower utcnow now p request :
  reachable p →
  (blank (QueryRequest.query request) →
   query_endpoint lower utcnow now p request = (Refused BAD_REQUEST, p, []))
  ∧ (¬ blank (QueryRequest.query request) →
     ∀ u, print_line now (announcement p (QueryRequest.session_id request))
          = inr u →
     ∃ r agent,
       fst (get_agent now p (QueryRequest.session_id request)) = inr r
       ∧ objects (snd (get_agent now p (QueryRequest.session_id request)))
         !! r = Some agent
       ∧ query_endpoint lower utcnow now p request
         = (Responded
              {| QueryResponse.response :=
                   fst (query lower (environment now) agent
                              (QueryRequest.query request));
                 QueryResponse.sources := [];
                 QueryResponse.session_id := QueryRequest.session_id request;
                 QueryResponse.timestamp := utcnow;
                 QueryResponse.status := lit "success" |},
            snd (get_agent now p (QueryRequest.session_id request)),
            snd (query lower (environment now) agent
                       (QueryRequest.query request))))
  ∧ (¬ blank (QueryRequest.query request) →
     ∀ e, print_line now (announcement p (QueryRequest.session_id request))
          = inl e →
     query_endpoint lower utcnow now p request = (on_exception now, p, [])
     ∧ (∀ u1 u2,
           print_line now (lit "ERROR in /query") = inr u1 →
           print_exc now = inr u2 →
           on_exception now = Refused INTERNAL_SERVER_ERROR))
  ∧ (fst (fst (query_endpoint lower utcnow now p request))
     = Refused INTERNAL_SERVER_ERROR →
     ∃ e, print_line now (announcement p (QueryRequest.session_id request))
          = inl e).
Proof.
  intros Hreach.
  assert (Hsome : ∀ c t u,
     strip (QueryRequest.query request) = c :: t →
     print_line now (announcement p (QueryRequest.session_id request))
     = inr u →
     ∃ r agent,
       fst (get_agent now p (QueryRequest.session_id request)) = inr r
       ∧ objects (snd (get_agent now p (QueryRequest.session_id request)))
         !! r = Some agent
       ∧ query_endpoint lower utcnow now p request
         = (Responded
              {| QueryResponse.response :=
                   fst (query lower (environment now) agent
                              (QueryRequest.query request));
                 QueryResponse.sources := [];
                 QueryResponse.session_id := QueryRequest.session_id request;
                 QueryResponse.timestamp := utcnow;
                 QueryResponse.status := lit "success" |},
            snd (get_agent now p (QueryRequest.session_id request)),
            snd (query lower (environment now) agent
                       (QueryRequest.query request)))).
  { intros c t u Hs Hu.
    destruct (get_agent_resolves now p _ u Hreach Hu)
      as (r & agent & Hr & Ha & _).
    exists r, agent. split; [exact Hr|]. split; [exact Ha|].
    rewrite query_endpoint_not_blank by (by rewrite Hs).
    destruct (get_agent now p (QueryRequest.session_id request))
      as [found p'].
    simpl in Hr, Ha. by rewrite Hr, Ha. }
  assert (Hraise : ∀ c t e,
     strip (QueryRequest.query request) = c :: t →
     print_line now (announcement p (QueryRequest.session_id request))
     = inl e →
     query_endpoint lower utcnow now p request = (on_exception now, p, [])).
  { intros c t e Hs He.
    rewrite query_endpoint_not_blank by (by rewrite Hs).
    by rewrite (get_agent_print_raises _ _ _ _ He). }
  split; [apply query_endpoint_blank|].
  split; [|split].
  - intros Hnb u Hu.
    destruct (strip (QueryRequest.query request)) as [|c t] eqn:Hs.
    + exfalso. by apply Hnb, strip_nil.
    + by apply (Hsome c t u).
  - intros Hnb e He.
    destruct (strip (QueryRequest.query request)) as [|c t] eqn:Hs.
    + exfalso. by apply Hnb, strip_nil.
    + split; [by apply (Hraise c t e)|].
      intros u1 u2 H1 H2. unfold on_exception. by rewrite H1, H2.
  - destruct (strip (QueryRequest.query request)) as [|c t] eqn:Hs.
    + rewrite query_endpoint_blank by (by apply strip_nil). by intros [=].
    + destruct (print_line now
                  (announcement p (QueryRequest.session_id request)))
        as [e|u] eqn:Hp; [by exists e|].
      destruct (Hsome c t u eq_refl eq_refl) as (r & agent & _ & _ & ->).
      by intros [=].
Qed.

Lemma query_endpoint_outcomes_witness :
  reachable Sample.process
  ∧ blank (QueryRequest.query Fixture.blank_request)
  ∧ query_endpoint lower_latin1 Fixture.now Sample.moment Sample.process
                   Fixture.blank_request
    = (Refused BAD_REQUEST, Sample.process, [])
  ∧ ¬ blank (QueryRequest.query Fixture.request)
  ∧ print_line Sample.moment
               (announcement Sample.process
                  (QueryRequest.session_id Fixture.request)) = inr tt
  ∧ fst (fst (query_endpoint lower_latin1 Fixture.now Sample.moment
                             Sample.process Fixture.request))
    = Responded {| QueryResponse.response := lit "Nodes talk over topics.";
                   QueryResponse.sources := [];
                   QueryResponse.session_id := Some (lit "alice");
                   QueryResponse.timestamp := Fixture.now;
                   QueryResponse.status := lit "success" |}
  ∧ print_line Fixture.moment_no_announcement
               (announcement Sample.process
                  (QueryRequest.session_id Fixture.bob_request))
    = inl (ServiceError (lit "stdout closed"))
  ∧ query_endpoint lower_latin1 Fixture.now Fixture.moment_no_announcement
                   Sample.process Fixture.bob_request
    = (Refused INTERNAL_SERVER_ERROR, Sample.process, []).
Proof.
  pose proof sample_process_reachable as Hreach.
  assert (Hb : blank (QueryRequest.query Fixture.blank_request))
    by (by repeat constructor).
  assert (Hnb : ¬ blank (QueryRequest.query Fixture.request)).
  { intros H. apply strip_nil in H. by vm_compute in H. }
  destruct (query_endpoint_outcomes lower_latin1 Fixture.now Sample.moment
              Sample.process Fixture.blank_request Hreach) as (H400 & _).
  destruct (query_endpoint_outcomes lower_latin1 Fixture.now Sample.moment
              Sample.process Fixture.request Hreach) as (_ & H200 & _).
  destruct (query_endpoint_outcomes lower_latin1 Fixture.now
              Fixture.moment_no_announcement Sample.process
              Fixture.bob_request Hreach) as (_ & _ & H500 & _).
  split; [exact Hreach|]. split; [exact Hb|]. split; [exact (H400 Hb)|].
  split; [exact Hnb|]. split; [reflexivity|].
  split; [|split; [reflexivity|]].
  - destruct (H200 Hnb tt eq_refl) as (r & agent & Hr & Ha & ->).
    assert (r = 0%nat) as -> by (vm_compute in Hr; congruence).
    assert (agent = __init__ Sample.env) as ->
      by (vm_compute in Ha; vm_compute; congruence).
    by vm_compute.
  - destruct (H500 Hnb _ eq_refl) as [-> Hhandler].
    by rewrite (Hhandler tt tt eq_refl eq_refl).
Defined.

(** X12.  A failure inside the agent is not an HTTP failure: when
    [get_agent] resolves an agent and the guarded block of [query] raises
    for that agent on the request's text, the handler still answers with a
    ["success"] envelope, whose text is the internal-error message. *)
Theorem query_endpoint_masks_failure lower utcnow now p request
        r agent cohere e log :
  fst (get_agent now p (QueryRequest.session_id request)) = inr r →
  objects (snd (get_agent now p (QueryRequest.session_id request))) !! r
  = Some agent →
  reaches_rag_flow lower agent (QueryRequest.query request) cohere →
  rag_flow (environment now) cohere (qdrant agent)
           (QueryRequest.query request) = (inl e, log) →
  query_endpoint lower utcnow now p request
  = (Responded {| QueryResponse.response := MSG_INTERNAL_ERROR;
                  QueryResponse.sources := [];
                  QueryResponse.session_id := QueryRequest.session_id request;
                  QueryResponse.timestamp := utcnow;
                  QueryResponse.status := lit "success" |},
     snd (get_agent now p (QueryRequest.session_id request)), log).
Proof.
  intros Hfound Hobj Hr Hflow.
  pose proof (query_enters_rag_flow lower (environment now) _ _ _ Hr) as Hq.
  rewrite Hflow in Hq. simpl in Hq.
  destruct Hr as (Hs & _).
  rewrite (query_endpoint_not_blank _ _ _ _ _ Hs).
  destruct (get_agent now p (QueryRequest.session_id request))
    as [found p'].
  simpl in Hfound, Hobj. by rewrite Hfound, Hobj, Hq.
Qed.

Lemma query_endpoint_masks_failure_witness :
  fst (get_agent Fixture.moment_embed_down startup
                 (QueryRequest.session_id Fixture.request)) = inr 0%nat
  ∧ objects (snd (get_agent Fixture.moment_embed_down startup
                            (QueryRequest.session_id Fixture.request)))
    !! 0%nat = Some (__init__ Fixture.env_embed_down)
  ∧ reaches_rag_flow lower_latin1 (__init__ Fixture.env_embed_down)
                     (QueryRequest.query Fixture.request)
                     Sample.cohere_embed_down
  ∧ fst (query_endpoint lower_latin1 Fixture.now Fixture.moment_embed_down
                        startup Fixture.request)
    = (Responded {| QueryResponse.response := MSG_INTERNAL_ERROR;
                    QueryResponse.sources := [];
                    QueryResponse.session_id := Some (lit "alice");
                    QueryResponse.timestamp := Fixture.now;
                    QueryResponse.status := lit "success" |},
       snd (get_agent Fixture.moment_embed_down startup
                      (Some (lit "alice")))).
Proof.
  pose proof (sample_question_reaches Sample.cohere_embed_down
                (qdrant (__init__ Fixture.env_embed_down))) as Hr.
  split; [reflexivity|]. split; [reflexivity|]. split; [exact Hr|].
  rewrite (query_endpoint_masks_failure lower_latin1 Fixture.now
             Fixture.moment_embed_down startup Fixture.request 0%nat
             (__init__ Fixture.env_embed_down) Sample.cohere_embed_down
             (ServiceError (lit "embed unavailable"))
             [embed_call Sample.question] eq_refl eq_refl Hr eq_refl).
  reflexivity.
Defined.
